(** * LLM-Deliberation: the Docent trajectory parser and uploader

    A shallow embedding of [docent/docent_trajectory_parser.py] and
    [docent/docent_proper_ingestion.py], and the properties the
    specification states about them.

    - [Py]: the Python values the scripts handle (text, decoded JSON,
      exceptions) and the string methods they call;
    - [Sre]: the backtracking matcher behind [re.search] and [re.findall],
      for the opcodes the three patterns of [_parse_round] compile to;
    - [TrajectoryParser]: the class of the same name, and [Summary]:
      the statistics its [main] prints;
    - [ProperDocentIngestor]: the uploader, and [IngestorMain]: its
      constructor and [main]. *)

From Stdlib Require Import Floats Uint63 Ascii String.
From stdpp Require Import base numbers list strings pretty gmap.

Set Warnings "-register-all".

(** ** Python values *)

Module Py.

(** A [str] is a sequence of Unicode code points. *)
Abbreviation pychar := N (only parsing).
Abbreviation pystr := (list N) (only parsing).

(** A literal of the source, as code points. *)
Definition str (s : string) : pystr :=
  N_of_ascii <$> list_ascii_of_string s.

(** [Py_UNICODE_ISSPACE]: the characters [str.strip] removes and the
    pattern [\s] matches on [str] subjects. *)
Definition isspace (c : pychar) : bool :=
  ((9 <=? c) && (c <=? 13) || (28 <=? c) && (c <=? 32)
   || (c =? 133) || (c =? 160) || (c =? 5760)
   || (8192 <=? c) && (c <=? 8202)
   || (c =? 8232) || (c =? 8233) || (c =? 8239) || (c =? 8287)
   || (c =? 12288))%N.

Fixpoint lstrip (s : pystr) : pystr :=
  match s with
  | c :: s' => if isspace c then lstrip s' else s
  | [] => []
  end.

Definition rstrip (s : pystr) : pystr := reverse (lstrip (reverse s)).

(** [s.strip()] *)
Definition strip (s : pystr) : pystr := rstrip (lstrip s).

(** [s.split(sep)] for a one-character separator: every occurrence
    splits, and the result is never empty. *)
Fixpoint split (sep : pychar) (s : pystr) : list pystr :=
  match s with
  | [] => [[]]
  | c :: s' =>
      if (c =? sep)%N then [] :: split sep s'
      else match split sep s' with
           | f :: fs => (c :: f) :: fs
           | [] => [[c]]
           end
  end.

(** [s.startswith(w)] *)
Fixpoint startswith (w s : pystr) : bool :=
  match w, s with
  | [], _ => true
  | a :: w', b :: s' => (a =? b)%N && startswith w' s'
  | _ :: _, [] => false
  end.

(** [s.find(w)]: the lowest index at which [w] occurs in [s]; [None] for
    Python's [-1]. *)
Fixpoint find (w s : pystr) : option nat :=
  if startswith w s then Some 0
  else match s with
       | [] => None
       | _ :: s' => S <$> find w s'
       end.

(** [s[b:e]] for [0 <= b], [0 <= e]. *)
Definition slice (b e : nat) (s : pystr) : pystr := take (e - b) (drop b s).

(** The exceptions of class [Exception] the scripts can meet: raised by
    the interpreter on a value of the wrong type, by [open] and
    [json.load], or by the Docent client. These are what the scripts'
    [except Exception] clauses catch; an interrupt or an exit of the
    interpreter is no [Exception] and is not modelled. *)
Inductive exn :=
| TypeError
| AttributeError
| KeyError
| JSONDecodeError
| OSError
| ClientError.

(** A computation returns a value or raises. *)
Inductive outcome (A : Type) :=
| Return (a : A)
| Raise (e : exn).
Arguments Return {A} a.
Arguments Raise {A} e.

(** Sequencing: an exception raised by the first step propagates. *)
#[global] Instance outcome_bind : MBind outcome := fun A B f m =>
  match m with
  | Return a => f a
  | Raise e => Raise e
  end.

#[global] Instance outcome_fmap : FMap outcome := fun A B f m =>
  match m with
  | Return a => Return (f a)
  | Raise e => Raise e
  end.

(** What [json.load] returns: [None], [bool], [int], [float], [str],
    [list] and [dict] with [str] keys. *)
Inductive json :=
| JNull
| JBool (b : bool)
| JInt (z : Z)
| JFloat (f : float)
| JStr (s : pystr)
| JArr (l : list json)
| JObj (m : gmap pystr json).

(** Truth value testing, as [if v:] and [v or w] apply it. *)
Definition truthy (v : json) : bool :=
  match v with
  | JNull => false
  | JBool b => b
  | JInt z => negb (z =? 0)%Z
  | JFloat f => negb (PrimFloat.eqb f 0%float)
  | JStr s => negb (bool_decide (s = []))
  | JArr l => negb (bool_decide (l = []))
  | JObj m => negb (bool_decide (size m = 0))
  end.

(** [v.get(key, default)]: only a [dict] has the method. *)
Definition get (v : json) (key : pystr) (dflt : json) : outcome json :=
  match v with
  | JObj m => Return (default dflt (m !! key))
  | _ => Raise AttributeError
  end.

(** [len(v)] *)
Definition len (v : json) : outcome nat :=
  match v with
  | JStr s => Return (length s)
  | JArr l => Return (length l)
  | JObj m => Return (size m)
  | _ => Raise TypeError
  end.

(** The items a [for] loop over [v] visits: the elements of a list, the
    characters of a string, the keys of a dict. *)
Definition iter (v : json) : outcome (list json) :=
  match v with
  | JStr s => Return ((fun c => JStr [c]) <$> s)
  | JArr l => Return l
  | JObj m => Return ((fun kv => JStr kv.1) <$> map_to_list m)
  | _ => Raise TypeError
  end.

(** [hash(v)] succeeds: lists and dicts are unhashable. *)
Definition hashable (v : json) : bool :=
  match v with
  | JArr _ | JObj _ => false
  | _ => true
  end.

End Py.

(** ** The regular-expression engine

    [re] compiles a pattern to a flat program and runs it on a
    backtracking matcher ([Modules/_sre]). The three patterns of
    [_parse_round] use literals, one capturing group and single-character
    repeats, greedy ([*], [+]) and lazy ([*?]); the model covers these. *)

Module Sre.
Import Py.

(** What one step of a single-character repeat accepts. *)
Inductive charset :=
| ANY_ALL                    (* [.] under [re.DOTALL] *)
| NOT_LITERAL (c : pychar)   (* [[^c]] *)
| CATEGORY_SPACE.            (* [\s] *)

Definition charset_match (cs : charset) (c : pychar) : bool :=
  match cs with
  | ANY_ALL => true
  | NOT_LITERAL c' => negb (c =? c')%N
  | CATEGORY_SPACE => isspace c
  end.

Inductive op :=
| LITERAL (c : pychar)
| MARK (i : nat)                     (* group [i/2 + 1] opens ([i] even) or closes *)
| REPEAT_ONE (min : nat) (cs : charset)       (* greedy: [cs{min,}] *)
| MIN_REPEAT_ONE (min : nat) (cs : charset).  (* lazy: [cs{min,}?] *)

Definition literals (w : pystr) : list op := LITERAL <$> w.

(** The marks set so far, the latest first. *)
Abbreviation marks := (list (nat * nat)) (only parsing).

Fixpoint get_mark (i : nat) (ms : marks) : option nat :=
  match ms with
  | [] => None
  | (j, p) :: ms' => if (i =? j)%nat then Some p else get_mark i ms'
  end.

Section Repeat.
Context {R : Type}.
(** [k s ptr] runs the rest of the program on the suffix [s], which
    starts at index [ptr] of the subject. *)
Variable k : pystr -> nat -> option R.
Variable cs : charset.
Variable min : nat.

(** Greedy: take every character the set accepts, then give back one at
    a time until the rest of the program matches; never fewer than
    [min]. [count] characters are taken already. *)
Fixpoint repeat_one (s : pystr) (ptr count : nat) : option R :=
  let tail := if (min <=? count)%nat then k s ptr else None in
  match s with
  | c :: s' =>
      if charset_match cs c then
        match repeat_one s' (S ptr) (S count) with
        | Some r => Some r
        | None => tail
        end
      else tail
  | [] => tail
  end.

(** Lazy: once [min] characters are taken, try the rest of the program
    first and take one more character only when it fails. *)
Fixpoint min_repeat_one (s : pystr) (ptr count : nat) : option R :=
  let more :=
    match s with
    | c :: s' =>
        if charset_match cs c then min_repeat_one s' (S ptr) (S count)
        else None
    | [] => None
    end in
  if (min <=? count)%nat then
    match k s ptr with
    | Some r => Some r
    | None => more
    end
  else more.

End Repeat.

(** [SRE(match)]: run [code] on the suffix [s] at index [ptr]. The
    attempt began at index [start]; with [must_advance] set, a match that
    ends where it began is refused and the matcher backtracks. The result
    is the index the match ends at, and the marks. *)
Fixpoint sre_match (must_advance : bool) (start : nat) (code : list op)
    (s : pystr) (ptr : nat) (ms : marks) : option (nat * marks) :=
  match code with
  | [] =>
      if must_advance && (ptr =? start)%nat then None else Some (ptr, ms)
  | LITERAL c :: code' =>
      match s with
      | c' :: s' =>
          if (c' =? c)%N then sre_match must_advance start code' s' (S ptr) ms
          else None
      | [] => None
      end
  | MARK i :: code' =>
      sre_match must_advance start code' s ptr ((i, ptr) :: ms)
  | REPEAT_ONE min cs :: code' =>
      repeat_one
        (fun s' ptr' => sre_match must_advance start code' s' ptr' ms)
        cs min s ptr 0
  | MIN_REPEAT_ONE min cs :: code' =>
      min_repeat_one
        (fun s' ptr' => sre_match must_advance start code' s' ptr' ms)
        cs min s ptr 0
  end.

(** [SRE(search)]: the first index from [ptr] on at which the program
    matches. Only the first attempt is subject to [must_advance]. The
    result is the match's start, its end and its marks. *)
Fixpoint sre_search (must_advance : bool) (code : list op)
    (s : pystr) (ptr : nat) : option (nat * nat * marks) :=
  match sre_match must_advance ptr code s ptr [] with
  | Some (e, ms) => Some (ptr, e, ms)
  | None =>
      match s with
      | [] => None
      | _ :: s' => sre_search false code s' (S ptr)
      end
  end.

(** A match object: the subject and the marks of the match. *)
Record Match := { m_string : pystr; m_start : nat; m_end : nat; m_marks : marks }.

(** [m.group(g)] for [g >= 1]: [None] when the group took no part. *)
Definition group (g : nat) (m : Match) : option pystr :=
  match get_mark (2 * (g - 1)) (m_marks m), get_mark (2 * (g - 1) + 1) (m_marks m) with
  | Some b, Some e => Some (slice b e (m_string m))
  | _, _ => None
  end.

(** [re.search(pattern, string)] *)
Definition search (code : list op) (string : pystr) : option Match :=
  match sre_search false code string 0 with
  | Some (b, e, ms) =>
      Some {| m_string := string; m_start := b; m_end := e; m_marks := ms |}
  | None => None
  end.

(** The loop of [pattern_findall] for a pattern with one group: search
    from [start], keep the group's text (the empty string when the group
    took no part), go on from the end of the match, and after an empty
    match ask the next one to advance. The loop runs at most twice per
    index of the subject; [fuel] bounds the number of iterations
    ([SreFacts.findall_loop_fuel]: from [iterations] on, more fuel changes
    nothing). *)
Fixpoint findall_loop (fuel : nat) (code : list op) (string : pystr)
    (start : nat) (must_advance : bool) : list pystr :=
  match fuel with
  | 0 => []
  | S fuel' =>
      if (length string <? start)%nat then []
      else
        match sre_search must_advance code (drop start string) start with
        | None => []
        | Some (b, e, ms) =>
            let m := {| m_string := string; m_start := b; m_end := e; m_marks := ms |} in
            default [] (group 1 m)
              :: findall_loop fuel' code string e (e =? b)%nat
        end
  end.

(** The iterations the loop can still make from [start]. *)
Definition iterations (string : pystr) (start : nat) (must_advance : bool) : nat :=
  2 * (length string - start) + (if must_advance then 1 else 2).

(** [re.findall(pattern, string)] for a pattern with one group. *)
Definition findall (code : list op) (string : pystr) : list pystr :=
  findall_loop (iterations string 0 false) code string 0 false.

End Sre.

(** ** docent_trajectory_parser.py *)

Module TrajectoryParser.
Import Py Sre.

(** One value of the [config] dict. *)
Record agent_entry := {
  short_name : pystr;
  player_type : pystr;
  strategy : pystr;
  model : pystr }.

(** A trajectory file of the data directory: its name, and what [open]
    and [json.load] yield for it. *)
Record file := { name : pystr; load : outcome json }.

(** The data directory: the lines of [config.txt] when the file exists
    (each as the file iterator yields it, line end included), the files
    [glob("history*.json")] lists, in its order, and the files of
    [processed/]. *)
Record directory := {
  config_txt : option (list pystr);
  history_files : list file;
  processed : list file }.

(** The body of the loop of [_load_config]. *)
Definition _load_config_line (config : gmap pystr agent_entry) (line : pystr)
    : gmap pystr agent_entry :=
  let parts := split 44 (strip line) in
  if (5 <=? length parts)%nat then
    match parts with
    | agent_name :: p1 :: p2 :: p3 :: p4 :: _ =>
        <[agent_name := {| short_name := p1; player_type := p2;
                           strategy := p3; model := p4 |}]> config
    | _ => config
    end
  else config.

Definition _load_config (data_dir : directory) : gmap pystr agent_entry :=
  match config_txt data_dir with
  | Some f => foldl _load_config_line ∅ f
  | None => ∅
  end.

(** The object: [self.data_dir] and [self.config]. *)
Record TrajectoryParser := {
  data_dir : directory;
  config : gmap pystr agent_entry }.

Definition __init__ (data_dir : directory) : TrajectoryParser :=
  {| data_dir := data_dir; config := _load_config data_dir |}.

(** [<DEAL>\s*([^<]+)\s*</DEAL>] *)
Definition deal_pattern : list op :=
  literals (str "<DEAL>")
    ++ [REPEAT_ONE 0 CATEGORY_SPACE;
        MARK 0; REPEAT_ONE 1 (NOT_LITERAL 60); MARK 1;
        REPEAT_ONE 0 CATEGORY_SPACE]
    ++ literals (str "</DEAL>").

(** [<SCRATCHPAD>(.*?)</SCRATCHPAD>] with [re.DOTALL] *)
Definition scratchpad_pattern : list op :=
  literals (str "<SCRATCHPAD>")
    ++ [MARK 0; MIN_REPEAT_ONE 0 ANY_ALL; MARK 1]
    ++ literals (str "</SCRATCHPAD>").

(** [<ANSWER>(.*?)</ANSWER>] with [re.DOTALL] *)
Definition answer_pattern : list op :=
  literals (str "<ANSWER>")
    ++ [MARK 0; MIN_REPEAT_ONE 0 ANY_ALL; MARK 1]
    ++ literals (str "</ANSWER>").

(** [re.findall] and [re.search] take a [str] subject. *)
Definition re_findall (code : list op) (string : json) : outcome (list pystr) :=
  match string with
  | JStr s => Return (findall code s)
  | _ => Raise TypeError
  end.

Definition re_search (code : list op) (string : json) : outcome (option Match) :=
  match string with
  | JStr s => Return (search code s)
  | _ => Raise TypeError
  end.

(** [m.group(1).strip()]; a group that took no part is [None], which has
    no [strip]. *)
Definition group1_strip (m : Match) : outcome pystr :=
  match group 1 m with
  | Some g => Return (strip g)
  | None => Raise AttributeError
  end.

(** [self.config.get(agent, {})]; [None] stands for the empty dict. The
    key is hashed first. *)
Definition config_get (config : gmap pystr agent_entry) (agent : json)
    : outcome (option agent_entry) :=
  match agent with
  | JStr a => Return (config !! a)
  | _ => if hashable agent then Return None else Raise TypeError
  end.

(** The dict [_parse_round] returns. *)
Record parsed_round := {
  round_index : nat;
  agent : json;
  agent_config : option agent_entry;
  prompt : json;
  full_answer : json;
  public_answer : json;
  deals_proposed : list pystr;
  scratchpad_reasoning : option pystr;
  message_length : nat;
  has_scratchpad : bool;
  has_deal : bool }.

Definition _parse_round (self : TrajectoryParser) (round_data : json)
    (round_idx : nat) : outcome parsed_round :=
  agent ← get round_data (str "agent") (JStr []);
  (* Extract deal proposals using regex *)
  string ← get round_data (str "full_answer") (JStr []);
  deals ← re_findall deal_pattern string;
  (* Extract scratchpad content *)
  string ← get round_data (str "full_answer") (JStr []);
  scratchpad_match ← re_search scratchpad_pattern string;
  scratchpad_content ←
    match scratchpad_match with
    | Some m => Some <$> group1_strip m
    | None => Return None
    end;
  (* Extract public answer *)
  string ← get round_data (str "full_answer") (JStr []);
  answer_match ← re_search answer_pattern string;
  public_answer ←
    match answer_match with
    | Some m => JStr <$> group1_strip m
    | None => get round_data (str "public_answer") (JStr [])
    end;
  agent_config ← config_get (config self) agent;
  prompt ← get round_data (str "prompt") (JStr []);
  full_answer ← get round_data (str "full_answer") (JStr []);
  message_length ← (v ← get round_data (str "full_answer") (JStr []); len v);
  Return {|
    round_index := round_idx;
    agent := agent;
    agent_config := agent_config;
    prompt := prompt;
    full_answer := full_answer;
    public_answer := public_answer;
    deals_proposed := deals;
    scratchpad_reasoning := scratchpad_content;
    message_length := message_length;
    has_scratchpad := bool_decide (scratchpad_content <> None);
    has_deal := bool_decide (0 < length deals) |}.

(** The dict [parse_trajectory_file] returns. *)
Record trajectory_metadata := {
  meta_config : gmap pystr agent_entry;
  meta_total_rounds : nat;
  finished_rounds : json }.

Record parsed_data := {
  pd_filename : pystr;
  slot_assignment : json;
  rounds : list parsed_round;
  pd_metadata : trajectory_metadata }.

(** The loop [for round_idx, round_data in enumerate(...)], appending
    to [parsed_data['rounds']]. *)
Fixpoint parse_rounds (self : TrajectoryParser) (rounds : list json)
    (round_idx : nat) : outcome (list parsed_round) :=
  match rounds with
  | [] => Return []
  | round_data :: rest =>
      parsed_round ← _parse_round self round_data round_idx;
      parsed ← parse_rounds self rest (S round_idx);
      Return (parsed_round :: parsed)
  end.

Definition parse_trajectory_file (self : TrajectoryParser) (filepath : file)
    : outcome parsed_data :=
  data ← load filepath;
  let filename := name filepath in
  slot_assignment ← get data (str "slot_assignment") (JArr []);
  total_rounds ← (v ← get data (str "rounds") (JArr []); len v);
  finished_rounds ← get data (str "finished_rounds") (JInt 0);
  (* Process each round *)
  items ← (v ← get data (str "rounds") (JArr []); iter v);
  rounds ← parse_rounds self items 0;
  Return {|
    pd_filename := filename;
    slot_assignment := slot_assignment;
    rounds := rounds;
    pd_metadata := {|
      meta_config := config self;
      meta_total_rounds := total_rounds;
      finished_rounds := finished_rounds |} |}.

(** A message and a run of the intermediate artifact. *)
Record message := { role : pystr; content : json }.

Record run_metadata := {
  filename : pystr;
  experiment_type : pystr;
  total_rounds : nat }.

Record run := { messages : list message; metadata : run_metadata }.

(** The body of the loop of [convert_to_docent_format]: [messages] after
    one more round. *)
Definition convert_round (messages : list message) (round_data : parsed_round)
    : list message :=
  (* Add user prompt if available *)
  let messages :=
    if truthy (prompt round_data)
    then messages ++ [{| role := str "user"; content := prompt round_data |}]
    else messages in
  let message := {|
    role := str "assistant";
    content := if truthy (public_answer round_data)
               then public_answer round_data
               else full_answer round_data |} in
  messages ++ [message].

Definition convert_to_docent_format (parsed_data : parsed_data) : list run :=
  let messages := foldl convert_round [] (rounds parsed_data) in
  let run := {|
    messages := messages;
    metadata := {|
      filename := pd_filename parsed_data;
      experiment_type := str "multi_agent_negotiation";
      total_rounds := meta_total_rounds (pd_metadata parsed_data) |} |} in
  [run].

(** The [try] block of [process_all_trajectories] for one file. *)
Definition process_file (self : TrajectoryParser) (json_file : file)
    : outcome (list run) :=
  parsed_data ← parse_trajectory_file self json_file;
  Return (convert_to_docent_format parsed_data).

(** The body of its loop: [all_runs] and [processed_files] after one
    more file; an exception leaves both as they were. *)
Definition process_step (self : TrajectoryParser)
    (acc : list run * list file) (json_file : file) : list run * list file :=
  match process_file self json_file with
  | Return docent_runs => (acc.1 ++ docent_runs, acc.2 ++ [json_file])
  | Raise e => acc
  end.

Definition process_all_trajectories (self : TrajectoryParser)
    : list run * list file :=
  let json_files := history_files (data_dir self) in
  foldl (process_step self) ([], []) json_files.

(** [json_file.rename(processed_dir / json_file.name)]: the file leaves
    the data directory and arrives in [processed/] (where a file of the
    same name, which the move would replace, is not looked for). *)
Definition rename (d : directory) (json_file : file) : directory :=
  {| config_txt := config_txt d;
     history_files :=
       filter (fun f => name f <> name json_file) (history_files d);
     processed := processed d ++ [json_file] |}.

(** What [main] leaves behind: the artifact it wrote and the directory. *)
Record main_result := {
  docent_prepared_data : list run;
  directory_after : directory }.

Definition main (data_dir : directory) : main_result :=
  let parser := __init__ data_dir in
  let '(docent_runs, processed_files) := process_all_trajectories parser in
  (* Move processed files to prevent re-processing *)
  {| docent_prepared_data := docent_runs;
     directory_after := foldl rename data_dir processed_files |}.

End TrajectoryParser.

(** ** The summary statistics of the parser's [main] *)

Module Summary.
Import Py TrajectoryParser.

(** A loop whose body may raise: the state after the last item, or the
    first exception. *)
Fixpoint for_each {A B : Type} (body : B -> A -> outcome B) (state : B)
    (items : list A) : outcome B :=
  match items with
  | [] => Return state
  | item :: rest => state' ← body state item; for_each body state' rest
  end.

(** The dict a message of a run is, with the two keys
    [convert_to_docent_format] gives it. *)
Definition message_dict (msg : message) : json :=
  JObj {[ str "role" := JStr (role msg); str "content" := content msg ]}.

(** [key in container] for a [str] key: a key of a dict, an element of a
    list, a substring of a string. *)
Definition contains (key : pystr) (container : json) : outcome bool :=
  match container with
  | JObj m => Return (bool_decide (is_Some (m !! key)))
  | JArr l =>
      Return (existsb (fun v => match v with
                                | JStr s => bool_decide (s = key)
                                | _ => false
                                end) l)
  | JStr s => Return (bool_decide (is_Some (find key s)))
  | _ => Raise TypeError
  end.

(** [v[key]] for a [str] key: only a dict takes one. *)
Definition getitem (v : json) (key : pystr) : outcome json :=
  match v with
  | JObj m =>
      match m !! key with
      | Some x => Return x
      | None => Raise KeyError
      end
  | _ => Raise TypeError
  end.

(** The body of the inner loop over the messages. [agents] holds the
    values added to the set so far, in the order of the calls to [add]:
    the set is empty exactly when no value was added. *)
Definition agents_add (agents : list json) (msg : message) : outcome (list json) :=
  metadata ← get (message_dict msg) (str "metadata") (JObj ∅);
  found ← contains (str "agent_name") metadata;
  if found : bool then
    metadata ← getitem (message_dict msg) (str "metadata");
    agent_name ← getitem metadata (str "agent_name");
    if hashable agent_name then Return (agents ++ [agent_name])
    else Raise TypeError
  else Return agents.

(** What [main] prints at the end: [total_messages] and the agents. *)
Record summary := { total_messages : nat; agents : list json }.

Definition summary_statistics (docent_runs : list run) : outcome summary :=
  let total_messages := sum_list ((fun run => length (messages run)) <$> docent_runs) in
  agents ←
    for_each (fun agents run => for_each agents_add agents (messages run))
      [] docent_runs;
  Return {| total_messages := total_messages; agents := agents |}.

End Summary.

(** ** docent_proper_ingestion.py *)

Module ProperDocentIngestor.
Import Py.
Import TrajectoryParser (message, role, content).

(** One element of the artifact as [json.load] returns it: a run whose
    metadata may lack [total_rounds]. *)
Record run_metadata := { filename : pystr; total_rounds : option Z }.

Record run_data := { messages : list message; metadata : run_metadata }.

(** [docent.data_models.chat.message] *)
Inductive chat_message :=
| UserMessage (content : json)
| AssistantMessage (content : json).

(** The text of [f"{n}"] for an [int]. *)
Definition decimal (n : nat) : pystr := str (pretty n).

Section Ingestor.
(** [float], and [float(n)] for an [int] [n]. *)
Context {pyfloat : Type}.
Variable float : Z -> pyfloat.

Record Transcript := {
  t_name : pystr;
  t_description : pystr;
  t_messages : list chat_message }.

Record BaseAgentRunMetadata := { scores : list (pystr * pyfloat) }.

Record AgentRun := {
  ar_name : pystr;
  ar_description : pystr;
  transcripts : list (pystr * Transcript);
  ar_metadata : BaseAgentRunMetadata }.

(** The body of the inner loop of [create_agent_runs_from_data]:
    [messages] after one more [msg]. *)
Definition append_message (messages : list chat_message) (msg : message)
    : list chat_message :=
  if bool_decide (role msg = str "user")
  then messages ++ [UserMessage (content msg)]
  else if bool_decide (role msg = str "assistant")
  then messages ++ [AssistantMessage (content msg)]
  else messages.

(** The body of the outer loop: the [AgentRun] of the run at index [i]. *)
Definition create_agent_run (i : nat) (run_data : run_data) : AgentRun :=
  let messages := foldl append_message [] (messages run_data) in
  let transcript := {|
    t_name := str "Negotiation Session " ++ decimal (i + 1);
    t_description :=
      str "Multi-agent negotiation from " ++ filename (metadata run_data);
    t_messages := messages |} in
  let agent_run_metadata := {|
    scores :=
      [(str "total_rounds",
        float (default 0%Z (total_rounds (metadata run_data))));
       (str "message_count", float (Z.of_nat (length messages)));
       (str "session_id", float (Z.of_nat (i + 1)))] |} in
  {| ar_name := str "Negotiation Session " ++ decimal (i + 1);
     ar_description :=
       str "Agent negotiation session from " ++ filename (metadata run_data);
     transcripts := [(str "main", transcript)];
     ar_metadata := agent_run_metadata |}.

(** [data_file] is what [open] and [json.load] yield for the artifact. *)
Definition create_agent_runs_from_data (data_file : outcome (list run_data))
    : outcome (list AgentRun) :=
  runs_data ← data_file;
  Return (imap create_agent_run runs_data).

(** The Docent client: what [add_agent_runs] answers to a call, and the
    calls made to it so far. *)
Context {response : Type}.
Variable add_agent_runs : pystr -> list AgentRun -> outcome response.

Record ProperDocentIngestor := {
  client_calls : list (pystr * list AgentRun) }.

(** The result of [ingest_to_collection], and the object after it. *)
Definition ingest_to_collection (self : ProperDocentIngestor)
    (data_file : outcome (list run_data)) (collection_id : pystr)
    : outcome (bool * nat) * ProperDocentIngestor :=
  match create_agent_runs_from_data data_file with
  | Raise e => (Raise e, self)
  | Return agent_runs =>
      let self' :=
        {| client_calls := client_calls self ++ [(collection_id, agent_runs)] |} in
      match add_agent_runs collection_id agent_runs with
      | Return result => (Return (true, length agent_runs), self')
      | Raise e => (Return (false, 0), self')
      end
  end.

End Ingestor.


End ProperDocentIngestor.

(** ** The uploader's constructor and [main] *)

Module IngestorMain.
Import Py ProperDocentIngestor.

(** What [main] can catch: the [ValueError] of [__init__], or one of the
    exceptions of [Py.exn]. *)
Inductive exception :=
| ValueError
| Exn (e : exn).

(** What [main] prints last: the count of sessions ingested, that the
    ingestion failed, or the error caught. *)
Inductive report :=
| Ingested (count : nat)
| Failed
| Error (e : exception).

Definition collection_id : pystr := str "de941abb-54e7-4425-8535-b87d1758eb59".

Section Main.
Context {pyfloat : Type}.
Variable float : Z -> pyfloat.

(** The Docent library: the constructor of a client from an API key,
    and the client's [add_agent_runs]. *)
Context {docent response : Type}.
Variable Docent : pystr -> outcome docent.
Variable add_agent_runs :
  docent -> pystr -> list (@AgentRun pyfloat) -> outcome response.

(** [self.api_key] and [self.client]. *)
Record ingestor := { api_key : pystr; client : docent }.

(** [ProperDocentIngestor(api_key)]; [environ] is [os.environ]. An
    absent argument is [None]. *)
Definition __init__ (api_key : option pystr) (environ : gmap pystr pystr)
    : exception + ingestor :=
  let api_key :=
    match api_key with
    | Some (c :: k) => Some (c :: k)
    | _ => environ !! str "DOCENT_API_KEY"
    end in
  match api_key with
  | Some (c :: k) =>
      match Docent (c :: k) with
      | Return client => inr {| api_key := c :: k; client := client |}
      | Raise e => inl (Exn e)
      end
  | _ => inl ValueError
  end.

(** [main()]: the report, and the calls made to [add_agent_runs].
    [data_file] is what [open] and [json.load] yield for the artifact. *)
Definition main (environ : gmap pystr pystr) (data_file : outcome (list run_data))
    : report * list (pystr * list (@AgentRun pyfloat)) :=
  match __init__ None environ with
  | inl e => (Error e, [])
  | inr ingestor =>
      let '(result, self) :=
        ingest_to_collection float (add_agent_runs (client ingestor))
          {| client_calls := [] |} data_file collection_id in
      match result with
      | Return (true, count) => (Ingested count, client_calls self)
      | Return (false, _) => (Failed, client_calls self)
      | Raise e => (Error (Exn e), client_calls self)
      end
  end.

End Main.

End IngestorMain.

(** * Notions the properties are stated with *)

Module Notions.
Import Py Sre TrajectoryParser.

(** The tags of [_parse_round]. *)
Definition DEAL : pystr := str "<DEAL>".
Definition END_DEAL : pystr := str "</DEAL>".
Definition SCRATCHPAD : pystr := str "<SCRATCHPAD>".
Definition END_SCRATCHPAD : pystr := str "</SCRATCHPAD>".
Definition ANSWER : pystr := str "<ANSWER>".
Definition END_ANSWER : pystr := str "</ANSWER>".

(** A word whose first character stands nowhere else in it: no
    occurrence of such a word overlaps another. Every tag is one. *)
Definition headfree (w : pystr) : Prop :=
  match w with
  | c :: w' => c ∉ w'
  | [] => False
  end.

(** [open(.*?)close] under [re.DOTALL]: the shape of the scratchpad and
    answer patterns. *)
Definition tag_pattern (open close : pystr) : list op :=
  literals open ++ [MARK 0; MIN_REPEAT_ONE 0 ANY_ALL; MARK 1] ++ literals close.

(** The marks of a match whose group 1 runs from [b] to [e]. *)
Definition tag_marks (b e : nat) : list (nat * nat) := [(1, e); (0, b)].

(** The text between the first [open] and the first [close] after it:
    group 1 of the first match of [open(.*?)close]. *)
Definition tag_text (open close s : pystr) : option pystr :=
  m ← search (tag_pattern open close) s; group 1 m.

(** The text group 1 of the deal pattern takes from the content [a] of a
    tag pair: [a] without its leading whitespace, and its last character
    when [a] is nothing but whitespace. *)
Definition deal_text (a : pystr) : pystr :=
  match lstrip a with
  | [] => drop (length a - 1) a
  | a' => a'
  end.

(** Content of a tag pair that the deal pattern takes whole: some text
    without [<] that does not begin with whitespace. *)
Definition deal_content (a : pystr) : Prop :=
  a <> [] /\ (60%N ∉ a) /\ lstrip a = a.

(** What follows the content of a tag pair: the end of the subject, or
    a [<]. *)
Definition at_tag (rest : pystr) : Prop :=
  match rest with
  | [] => True
  | c :: _ => c = 60%N
  end.

(** Tag pairs with their contents, each followed by some text:
    [<DEAL>a</DEAL>t...]. *)
Fixpoint deal_spans (spans : list (pystr * pystr)) : pystr :=
  match spans with
  | [] => []
  | (a, t) :: spans' => DEAL ++ a ++ END_DEAL ++ t ++ deal_spans spans'
  end.

(** A pair the deal pattern matches, followed by text without an opening
    tag. *)
Definition deal_span_ok (span : pystr * pystr) : Prop :=
  span.1 <> [] /\ (60%N ∉ span.1) /\ find DEAL span.2 = None.

(** What every entry of [deals_proposed] is: some text without [<]. *)
Definition deal_entry_ok (d : pystr) : Prop := d <> [] /\ 60%N ∉ d.

(** [round_data.get(key, '')] for a round read as the dict [m]. *)
Definition field (m : gmap pystr json) (key : string) : json :=
  default (JStr []) (m !! str key).

(** What [_parse_round] returns for the dict [m], at index [idx], when
    the round's [full_answer] is the text [s]. *)
Definition parsed (self : TrajectoryParser) (m : gmap pystr json)
    (idx : nat) (s : pystr) : parsed_round :=
  let scratchpad := strip <$> tag_text SCRATCHPAD END_SCRATCHPAD s in
  {| round_index := idx;
     agent := field m "agent";
     agent_config :=
       match field m "agent" with
       | JStr a => config self !! a
       | _ => None
       end;
     prompt := field m "prompt";
     full_answer := JStr s;
     public_answer :=
       match tag_text ANSWER END_ANSWER s with
       | Some x => JStr (strip x)
       | None => field m "public_answer"
       end;
     deals_proposed := findall deal_pattern s;
     scratchpad_reasoning := scratchpad;
     message_length := length s;
     has_scratchpad := bool_decide (scratchpad <> None);
     has_deal := bool_decide (0 < length (findall deal_pattern s)) |}.

(** The messages one round adds to a run. *)
Definition round_messages (r : parsed_round) : list message :=
  (if truthy (prompt r) then [{| role := str "user"; content := prompt r |}] else [])
    ++ [{| role := str "assistant";
           content := if truthy (public_answer r) then public_answer r
                      else full_answer r |}].

(** The runs one file adds to [all_runs]: none when it raises. *)
Definition runs_of (self : TrajectoryParser) (f : file) : list run :=
  match process_file self f with
  | Return rs => rs
  | Raise _ => []
  end.

(** Processing the file raises nothing. *)
Definition succeeds (self : TrajectoryParser) (f : file) : bool :=
  match process_file self f with
  | Return _ => true
  | Raise _ => false
  end.

(** The fields of a line of [config.txt]. *)
Definition parts (line : pystr) : list pystr := split 44 (strip line).

(** The name and the entry a line with five fields or more stands for. *)
Definition line_entry (line : pystr) : option (pystr * agent_entry) :=
  match parts line with
  | agent_name :: p1 :: p2 :: p3 :: p4 :: _ =>
      Some (agent_name, {| short_name := p1; player_type := p2;
                           strategy := p3; model := p4 |})
  | _ => None
  end.

(** None of the lines gives an entry for the name. *)
Definition not_renamed (agent_name : pystr) (lines : list pystr) : Prop :=
  Forall (fun line => forall entry, line_entry line <> Some (agent_name, entry)) lines.

End Notions.

Module IngestorNotions.
Import Py.
Import TrajectoryParser (message, role, content).
Import ProperDocentIngestor.



End IngestorNotions.

Module RunNotions.
Import Py Sre TrajectoryParser Notions.

(** [sep.join(fields)] *)
Fixpoint join (sep : pychar) (fields : list pystr) : pystr :=
  match fields with
  | [] => []
  | [f] => f
  | f :: fs => f ++ sep :: join sep fs
  end.

(** Whitespace only. *)
Definition blank (ws : pystr) : Prop := Forall (fun c => isspace c = true) ws.

(** A match of the deal pattern: the text skipped before it, then
    [<DEAL>], whitespace, the entry, whitespace and [</DEAL>]. *)
Record segment := {
  skipped : pystr;
  leading : pystr;
  entry : pystr;
  trailing : pystr }.

(** A text cut into such matches, and the text after the last one. *)
Fixpoint deal_segments (segs : list segment) (tail : pystr) : pystr :=
  match segs with
  | [] => tail
  | seg :: segs' =>
      skipped seg ++ DEAL ++ leading seg ++ entry seg ++ trailing seg
        ++ END_DEAL ++ deal_segments segs' tail
  end.

Definition is_user (msg : message) : bool := bool_decide (role msg = str "user").

Definition is_assistant (msg : message) : bool :=
  bool_decide (role msg = str "assistant").

(** The content of the assistant message of a round:
    [round_data['public_answer'] or round_data['full_answer']]. *)
Definition answer (r : parsed_round) : json :=
  if truthy (public_answer r) then public_answer r else full_answer r.

Definition user_message (r : parsed_round) : message :=
  {| role := str "user"; content := prompt r |}.

Definition assistant_message (r : parsed_round) : message :=
  {| role := str "assistant"; content := answer r |}.

End RunNotions.

Module UploadNotions.
Import Py.
Import TrajectoryParser (message, role, content).
Import ProperDocentIngestor.


End UploadNotions.

(** * Sample inputs *)

Module Samples.
Import Py TrajectoryParser Notions.

(** A line of a text file, with its line end. *)
Definition line (s : string) : pystr := str s ++ [10%N].

(** A round of a trajectory file: a dict with the given text fields. *)
Definition round_dict (fields : list (string * string)) : gmap pystr json :=
  list_to_map ((fun kv => (str kv.1, JStr (str kv.2))) <$> fields).

(** A parser on an empty directory. *)
Definition no_parser : TrajectoryParser :=
  __init__ {| config_txt := None; history_files := []; processed := [] |}.

(** A scratchpad over two lines. *)
Definition two_lines : pystr := str " keep" ++ [10%N] ++ str " quiet ".

Definition scratchpad_round : gmap pystr json :=
  {[ str "full_answer" :=
       JStr (str "plan " ++ SCRATCHPAD ++ two_lines ++ END_SCRATCHPAD
               ++ str " <ANSWER>ok</ANSWER>") ]}.

(** A trajectory of two rounds, parsed. *)
Definition two_rounds : parsed_data :=
  {| pd_filename := str "history_1.json";
     slot_assignment := JArr [];
     rounds :=
       [parsed no_parser
          (round_dict [("prompt", "Your turn."); ("full_answer", "<ANSWER>I take A1</ANSWER>")])
          0 (str "<ANSWER>I take A1</ANSWER>");
        parsed no_parser
          (round_dict [("prompt", "Reply."); ("full_answer", "No deal.")])
          1 (str "No deal.")];
     pd_metadata :=
       {| meta_config := ∅; meta_total_rounds := 2; finished_rounds := JInt 2 |} |}.

(** Three trajectory files: the second has a round whose [full_answer]
    is a number, on which [re.findall] raises [TypeError]. *)
Definition history_1 : file :=
  {| name := str "history_1.json";
     load := Return (JObj {[ str "rounds" :=
       JArr [JObj (round_dict [("prompt", "Go."); ("full_answer", "<DEAL>A1</DEAL>")])] ]}) |}.

Definition history_2 : file :=
  {| name := str "history_2.json";
     load := Return (JObj {[ str "rounds" :=
       JArr [JObj {[ str "full_answer" := JInt 5 ]}] ]}) |}.

Definition history_3 : file :=
  {| name := str "history_3.json";
     load := Return (JObj {[ str "rounds" := JArr [] ]}) |}.

Definition three_files : directory :=
  {| config_txt := None;
     history_files := [history_1; history_2; history_3];
     processed := [] |}.



End Samples.

Module MoreSamples.
Import Py TrajectoryParser.

(** A round with the same prompt and answers, and other values in
    every other field. *)
Definition other_extraction (r : parsed_round) : parsed_round :=
  {| round_index := 7;
     agent := JStr (str "Bob");
     agent_config := None;
     prompt := prompt r;
     full_answer := full_answer r;
     public_answer := public_answer r;
     deals_proposed := [str "A1"];
     scratchpad_reasoning := Some (str "secret");
     message_length := 0;
     has_scratchpad := true;
     has_deal := true |}.

End MoreSamples.

(** * Proofs *)

Module PyFacts.
Import Py Notions.

Lemma startswith_nil_r (w : pystr) : startswith w [] = bool_decide (w = []).
Proof. by destruct w. Qed.

Lemma startswith_cons (a b : N) (w s : pystr) :
  startswith (a :: w) (b :: s) = (a =? b)%N && startswith w s.
Proof. done. Qed.

Lemma startswith_true (w s : pystr) :
  startswith w s = true <-> exists t, s = w ++ t.
Proof.
  revert s. induction w as [|a w IH]; intros s; simpl.
  - split; [eauto | done].
  - destruct s as [|b s].
    + split; [done | by intros [t ?]].
    + rewrite andb_true_iff, N.eqb_eq, IH. split.
      * intros [-> [t ->]]. eauto.
      * intros [t [= -> ->]]. eauto.
Qed.

Lemma startswith_app (w t : pystr) : startswith w (w ++ t) = true.
Proof. apply startswith_true. eauto. Qed.

Lemma startswith_drop (w s : pystr) :
  startswith w s = true -> s = w ++ drop (length w) s.
Proof.
  intros [t ->]%startswith_true. by rewrite drop_app_length.
Qed.

(** A word that begins [s ++ q] begins [s], or runs over the end of [s]. *)
Lemma startswith_app_inv (u s q : pystr) :
  startswith u (s ++ q) = true ->
  startswith u s = true \/
  exists u2, u = s ++ u2 /\ u2 <> [] /\ startswith u2 q = true.
Proof.
  revert u. induction s as [|b s IH]; intros u H; simpl in *.
  - destruct u as [|a u]; [by left | right]. by exists (a :: u).
  - destruct u as [|a u]; [by left |]. simpl in H |- *.
    apply andb_true_iff in H as [Hab H]. rewrite Hab. simpl.
    apply N.eqb_eq in Hab as ->.
    destruct (IH _ H) as [?|(u2 & -> & ? & ?)]; [by left | right].
    by exists u2.
Qed.

Lemma find_Some_0 (w s : pystr) : startswith w s = true -> find w s = Some 0.
Proof. intros H. destruct s; simpl; by rewrite H. Qed.

Lemma find_cons (w : pystr) (c : N) (s : pystr) :
  startswith w (c :: s) = false -> find w (c :: s) = S <$> find w s.
Proof.
  intros H.
  change (find w (c :: s))
    with (if startswith w (c :: s) then Some 0 else S <$> find w s).
  by rewrite H.
Qed.

Lemma find_None_startswith (w s : pystr) :
  find w s = None -> startswith w s = false.
Proof. destruct s; simpl; by destruct (startswith _ _). Qed.

Lemma find_None_tail (w : pystr) (c : N) (s : pystr) :
  find w (c :: s) = None -> find w s = None.
Proof.
  intros H. pose proof (find_None_startswith _ _ H) as H1.
  rewrite find_cons in H by done. by destruct (find w s).
Qed.

Lemma find_None_drop (w s : pystr) (n : nat) :
  find w s = None -> find w (drop n s) = None.
Proof.
  revert s. induction n as [|n IH]; intros s H; [by rewrite drop_0|].
  destruct s as [|c s]; [done|]. simpl. eauto using find_None_tail.
Qed.

(** [find] gives an index at which the word stands. *)
Lemma find_Some_inv (w s : pystr) (i : nat) :
  find w s = Some i ->
  s = take i s ++ w ++ drop (i + length w) s /\ i + length w <= length s.
Proof.
  revert i. induction s as [|c s IH]; intros i.
  - simpl. destruct (startswith w []) eqn:E; [|done].
    intros [= <-]. rewrite startswith_nil_r in E.
    apply bool_decide_eq_true in E as ->. done.
  - destruct (startswith w (c :: s)) eqn:E.
    + rewrite find_Some_0 by done. intros [= <-].
      apply startswith_true in E as [t E]. rewrite E. simpl.
      rewrite drop_app_length, length_app. split; [done | lia].
    + rewrite find_cons by done. destruct (find w s) as [j|] eqn:Ej; [|done].
      intros [= <-]. destruct (IH j eq_refl) as [IH1 IH2]. simpl.
      split; [by rewrite <- IH1 | lia].
Qed.

(** A headfree word does not begin before the end of [s] in [s]
    followed by its own first character, unless it begins [s]. *)
Lemma startswith_headfree_cons (c : N) (w s v : pystr) :
  headfree (c :: w) -> s <> [] -> startswith (c :: w) s = false ->
  startswith (c :: w) (s ++ c :: v) = false.
Proof.
  intros Hw Hs Hn. destruct (startswith (c :: w) (s ++ c :: v)) eqn:E; [|done].
  apply startswith_app_inv in E as [E|(u2 & Heq & Hu & E)]; [congruence|].
  destruct s as [|d s]; [done|]. injection Heq as -> ->. simpl in Hw.
  destruct u2 as [|a u2]; [done|]. rewrite startswith_cons in E.
  apply andb_true_iff in E as [->%N.eqb_eq _].
  exfalso. apply Hw. apply elem_of_app. right. by left.
Qed.

Lemma startswith_headfree (w s rest : pystr) :
  headfree w -> s <> [] -> startswith w s = false ->
  startswith w (s ++ w ++ rest) = false.
Proof.
  destruct w as [|c w]; [done|]. apply startswith_headfree_cons.
Qed.

Lemma find_app_headfree (w s rest : pystr) :
  headfree w -> find w s = None -> find w (s ++ w ++ rest) = Some (length s).
Proof.
  intros Hw. induction s as [|c s IH]; intros Hn.
  - simpl. apply find_Some_0, startswith_app.
  - rewrite <- app_comm_cons, find_cons.
    + rewrite IH by eauto using find_None_tail. done.
    + rewrite app_comm_cons. apply startswith_headfree; [done..|].
      by apply find_None_startswith.
Qed.

(** A string that does not hold the word anywhere. *)
Lemma find_None_occurs (w s : pystr) :
  find w s = None <-> forall a b, s <> a ++ w ++ b.
Proof.
  split.
  - intros H a b ->. apply (find_None_drop _ _ (length a)) in H.
    rewrite drop_app_length in H. apply find_None_startswith in H.
    by rewrite startswith_app in H.
  - intros H. destruct (find w s) as [i|] eqn:E; [|done].
    apply find_Some_inv in E as [E _]. by apply H in E.
Qed.

Lemma lstrip_length (s : pystr) : length (lstrip s) <= length s.
Proof.
  induction s as [|c s IH]; simpl; [done|]. destruct (isspace c); simpl; lia.
Qed.

Lemma lstrip_suffix (s : pystr) : lstrip s = drop (length s - length (lstrip s)) s.
Proof.
  induction s as [|c s IH]; [done|]. simpl. destruct (isspace c).
  - pose proof (lstrip_length s).
    replace (S (length s) - length (lstrip s))
      with (S (length s - length (lstrip s))) by lia.
    done.
  - simpl. by rewrite Nat.sub_diag.
Qed.

Lemma slice_app (x a y : pystr) :
  slice (length x) (length x + length a) (x ++ a ++ y) = a.
Proof.
  unfold slice. rewrite drop_app_length.
  replace (length x + length a - length x) with (length a) by lia.
  by rewrite take_app_length.
Qed.

(** No occurrence begins in a text that lacks the word's first
    character. *)
Lemma find_app_notin (c : N) (w u v : pystr) :
  c ∉ u -> find (c :: w) v = None -> find (c :: w) (u ++ v) = None.
Proof.
  induction u as [|a u IH]; intros Hu Hv; [done|].
  apply not_elem_of_cons in Hu as [Hca Hu].
  rewrite <- app_comm_cons, find_cons.
  - by rewrite IH.
  - rewrite startswith_cons. by apply N.eqb_neq in Hca as ->.
Qed.

(** Nor across the end of a text that lacks the word, when what follows
    begins with the word's first character, found nowhere else in it. *)
Lemma find_app_head (c : N) (w u v : pystr) :
  headfree (c :: w) -> find (c :: w) u = None -> find (c :: w) (c :: v) = None ->
  find (c :: w) (u ++ c :: v) = None.
Proof.
  intros Hw. induction u as [|a u IH]; intros Hu Hv; [done|].
  rewrite <- app_comm_cons, find_cons.
  - rewrite IH by eauto using find_None_tail. done.
  - rewrite app_comm_cons. apply startswith_headfree_cons; [done..|].
    by apply find_None_startswith.
Qed.

End PyFacts.

Module SreFacts.
Import Py Sre PyFacts Notions.

Section Repeat.
Context {R : Type}.
Implicit Types (k : pystr -> nat -> option R) (s : pystr).

Lemma repeat_one_nil k cs min ptr count :
  repeat_one k cs min [] ptr count = if min <=? count then k [] ptr else None.
Proof. done. Qed.

Lemma repeat_one_cons k cs min c s ptr count :
  repeat_one k cs min (c :: s) ptr count =
  if charset_match cs c then
    match repeat_one k cs min s (S ptr) (S count) with
    | Some r => Some r
    | None => if min <=? count then k (c :: s) ptr else None
    end
  else if min <=? count then k (c :: s) ptr else None.
Proof. done. Qed.

Lemma min_repeat_one_ext k1 k2 cs min s ptr count :
  (forall s' p', k1 s' p' = k2 s' p') ->
  min_repeat_one k1 cs min s ptr count = min_repeat_one k2 cs min s ptr count.
Proof.
  intros E. revert ptr count. induction s as [|c s IH]; intros; simpl.
  - by rewrite E.
  - by rewrite IH, E.
Qed.

(** What a repeat returns, the rest of the program returned after some
    [j] characters of the set, at least [min] with those counted before. *)
Lemma repeat_one_sound k cs min s ptr count r :
  repeat_one k cs min s ptr count = Some r ->
  exists j, j <= length s /\ min <= count + j
    /\ Forall (fun c => charset_match cs c = true) (take j s)
    /\ k (drop j s) (ptr + j) = Some r.
Proof.
  revert ptr count. induction s as [|c s IH]; intros ptr count; simpl.
  - destruct (min <=? count) eqn:E; [|done]. apply Nat.leb_le in E.
    intros H. exists 0. replace (ptr + 0) with ptr by lia. 
      split_and!; [lia | lia | by constructor | done].
  - intros H.
    assert ((if min <=? count then k (c :: s) ptr else None) = Some r
            \/ charset_match cs c = true
               /\ repeat_one k cs min s (S ptr) (S count) = Some r) as [H1|[Hc H1]].
    { destruct (charset_match cs c); [|by left].
      destruct (repeat_one k cs min s (S ptr) (S count)); [right|left]; done. }
    + destruct (min <=? count) eqn:E; [|done]. apply Nat.leb_le in E.
      exists 0. replace (ptr + 0) with ptr by lia. simpl. 
      split_and!; [lia | lia | by constructor | done].
    + apply IH in H1 as (j & ? & ? & ? & H1). exists (S j). simpl.
      replace (ptr + S j) with (S ptr + j) by lia.
      split_and!; [lia | lia | by constructor | done].
Qed.

Lemma min_repeat_one_sound k cs min s ptr count r :
  min_repeat_one k cs min s ptr count = Some r ->
  exists j, j <= length s /\ min <= count + j
    /\ Forall (fun c => charset_match cs c = true) (take j s)
    /\ k (drop j s) (ptr + j) = Some r.
Proof.
  revert ptr count. induction s as [|c s IH]; intros ptr count; simpl.
  - destruct (min <=? count) eqn:E; [|done]. apply Nat.leb_le in E.
    destruct (k [] ptr) eqn:Hk; [|done]. intros [= ->].
    exists 0. replace (ptr + 0) with ptr by lia. 
      split_and!; [lia | lia | by constructor | done].
  - intros H.
    assert (min <= count /\ k (c :: s) ptr = Some r
            \/ charset_match cs c = true
               /\ min_repeat_one k cs min s (S ptr) (S count) = Some r) as [[E H1]|[Hc H1]].
    { destruct (min <=? count) eqn:E; [apply Nat.leb_le in E|].
      - destruct (k (c :: s) ptr) eqn:Hk; [left; by simplify_eq|].
        destruct (charset_match cs c); [by right | done].
      - destruct (charset_match cs c); [by right | done]. }
    + exists 0. replace (ptr + 0) with ptr by lia. simpl. 
      split_and!; [lia | lia | by constructor | done].
    + apply IH in H1 as (j & ? & ? & ? & H1). exists (S j). simpl.
      replace (ptr + S j) with (S ptr + j) by lia.
      split_and!; [lia | lia | by constructor | done].
Qed.

(** A lazy repeat of any character stops at the first place the rest of
    the program accepts: for a literal rest, where [find] says. *)
Lemma min_repeat_one_find (w : pystr) (f : nat -> R) s ptr count :
  min_repeat_one (fun s' p' => if startswith w s' then Some (f p') else None)
    ANY_ALL 0 s ptr count
  = (fun j => f (ptr + j)) <$> find w s.
Proof.
  revert ptr count. induction s as [|c s IH]; intros ptr count.
  - simpl. destruct (startswith w []); simpl; [|done]. by rewrite Nat.add_0_r.
  - destruct (startswith w (c :: s)) eqn:E.
    + rewrite find_Some_0 by done. simpl min_repeat_one. rewrite E. simpl.
      by rewrite Nat.add_0_r.
    + rewrite find_cons by done. simpl min_repeat_one. rewrite E, IH.
      destruct (find w s); simpl; [|done]. do 2 f_equal. lia.
Qed.

End Repeat.

Lemma sre_match_MARK ma st i code (s : pystr) ptr ms :
  sre_match ma st (MARK i :: code) s ptr ms =
  sre_match ma st code s ptr ((i, ptr) :: ms).
Proof. done. Qed.

Lemma sre_match_REPEAT_ONE ma st min cs code (s : pystr) ptr ms :
  sre_match ma st (REPEAT_ONE min cs :: code) s ptr ms =
  repeat_one (fun s' ptr' => sre_match ma st code s' ptr' ms) cs min s ptr 0.
Proof. done. Qed.

Lemma sre_match_literals ma st (w : pystr) code (s : pystr) ptr ms :
  sre_match ma st (literals w ++ code) s ptr ms =
  if startswith w s
  then sre_match ma st code (drop (length w) s) (ptr + length w) ms
  else None.
Proof.
  revert s ptr. induction w as [|c w IH]; intros s ptr; simpl.
  - by rewrite Nat.add_0_r.
  - destruct s as [|c' s]; [done|]. rewrite (N.eqb_sym c c').
    destruct (c' =? c)%N; simpl; [|done].
    rewrite IH. by replace (S ptr + length w) with (ptr + S (length w)) by lia.
Qed.

Lemma sre_match_literals_nil ma st (w : pystr) (s : pystr) ptr ms :
  sre_match ma st (literals w) s ptr ms =
  if startswith w s
  then (if ma && (ptr + length w =? st) then None else Some (ptr + length w, ms))
  else None.
Proof.
  rewrite <- (app_nil_r (literals w)) at 1. by rewrite sre_match_literals.
Qed.

(** The match ends between where it started and the end of the subject,
    and not where the attempt began when it must advance. *)
Lemma sre_match_bounds ma st code (s : pystr) ptr ms e ms' :
  sre_match ma st code s ptr ms = Some (e, ms') ->
  ptr <= e <= ptr + length s /\ (ma = true -> e <> st).
Proof.
  revert s ptr ms. induction code as [|o code IH]; intros s ptr ms; simpl.
  - destruct ma; simpl.
    + destruct (ptr =? st) eqn:E; [done|]. apply Nat.eqb_neq in E.
      intros [= <- <-]. split; [lia | done].
    + intros [= <- <-]. split; [lia | done].
  - destruct o as [c|i|min cs|min cs].
    + destruct s as [|c' s]; [done|]. destruct (c' =? c)%N; [|done].
      intros [H1 H2]%IH. simpl. split; [lia | done].
    + intros H%IH. done.
    + intros (j & Hj & _ & _ & [H1 H2]%IH)%repeat_one_sound.
      rewrite length_drop in H1. split; [lia | done].
    + intros (j & Hj & _ & _ & [H1 H2]%IH)%min_repeat_one_sound.
      rewrite length_drop in H1. split; [lia | done].
Qed.

Lemma sre_search_unfold ma code (s : pystr) ptr :
  sre_search ma code s ptr =
  match sre_match ma ptr code s ptr [] with
  | Some (e, ms) => Some (ptr, e, ms)
  | None =>
      match s with
      | [] => None
      | _ :: s' => sre_search false code s' (S ptr)
      end
  end.
Proof. by destruct s. Qed.

(** What a search returns is a match of the program at the index it
    names. *)
Lemma sre_search_sound ma code (s : pystr) ptr b e ms :
  sre_search ma code s ptr = Some (b, e, ms) ->
  exists j ma', j <= length s /\ b = ptr + j /\ (j = 0 -> ma' = ma)
    /\ sre_match ma' b code (drop j s) b [] = Some (e, ms).
Proof.
  revert ma ptr. induction s as [|c s IH]; intros ma ptr; simpl.
  - destruct (sre_match ma ptr code [] ptr []) as [[e' ms']|] eqn:E; [|done].
    intros [= <- <- <-]. exists 0, ma. rewrite Nat.add_0_r. done.
  - destruct (sre_match ma ptr code (c :: s) ptr []) as [[e' ms']|] eqn:E.
    + intros [= <- <- <-]. exists 0, ma. rewrite Nat.add_0_r.
      repeat split; [lia | done].
    + intros (j & ma' & ? & -> & _ & H)%IH. exists (S j), ma'. simpl.
      replace (ptr + S j) with (S ptr + j) by lia.
      repeat split; [lia | done | done].
Qed.

Lemma sre_search_bounds ma code (s : pystr) ptr b e ms :
  sre_search ma code s ptr = Some (b, e, ms) ->
  ptr <= b <= e /\ e <= ptr + length s /\ (ma = true -> ptr < e).
Proof.
  intros (j & ma' & Hj & -> & Hma & [H1 H2]%sre_match_bounds)%sre_search_sound.
  rewrite length_drop in H1. repeat split; [lia..|].
  intros ->. destruct j; [|lia]. rewrite Hma in H2 by done. specialize (H2 eq_refl). lia.
Qed.

Lemma group1_marks (string : pystr) b e m0 m1 :
  group 1 {| m_string := string; m_start := b; m_end := e;
             m_marks := [(1, m1); (0, m0)] |}
  = Some (slice m0 m1 string).
Proof. done. Qed.

Lemma findall_loop_S fuel code (string : pystr) start ma :
  findall_loop (S fuel) code string start ma =
  if length string <? start then []
  else
    match sre_search ma code (drop start string) start with
    | None => []
    | Some (b, e, ms) =>
        default [] (group 1 {| m_string := string; m_start := b; m_end := e; m_marks := ms |})
          :: findall_loop fuel code string e (e =? b)
    end.
Proof. done. Qed.

(** The loop of [findall] ends within [iterations]: more fuel changes
    nothing. *)
Lemma findall_loop_fuel fuel1 fuel2 code (string : pystr) start ma :
  iterations string start ma <= fuel1 ->
  iterations string start ma <= fuel2 ->
  findall_loop fuel1 code string start ma = findall_loop fuel2 code string start ma.
Proof.
  revert fuel2 start ma. induction fuel1 as [|fuel1 IH]; intros fuel2 start ma H1 H2.
  { unfold iterations in H1. destruct ma; lia. }
  destruct fuel2 as [|fuel2]; [unfold iterations in H2; destruct ma; lia|].
  simpl. destruct (length string <? start) eqn:E; [done|].
  apply Nat.ltb_ge in E.
  destruct (sre_search ma code (drop start string) start) as [[[b e] ms]|] eqn:Hs; [|done].
  f_equal. apply sre_search_bounds in Hs as (Hb & He & Hma).
  rewrite length_drop in He.
  assert (iterations string e (e =? b) < iterations string start ma).
  { unfold iterations in *. destruct (e =? b) eqn:Eb.
    - apply Nat.eqb_eq in Eb. destruct ma; [specialize (Hma eq_refl)|]; lia.
    - apply Nat.eqb_neq in Eb. destruct ma; lia. }
  apply IH; lia.
Qed.

Lemma findall_unfold code (string : pystr) :
  findall code string =
  match sre_search false code string 0 with
  | None => []
  | Some (b, e, ms) =>
      default [] (group 1 {| m_string := string; m_start := b; m_end := e; m_marks := ms |})
        :: findall_loop (iterations string e (e =? b)) code string e (e =? b)
  end.
Proof.
  unfold findall. unfold iterations at 1. rewrite Nat.sub_0_r.
  replace (2 * length string + 2) with (S (2 * length string + 1)) by lia.
  simpl findall_loop. rewrite drop_0.
  destruct (sre_search false code string 0) as [[[b e] ms]|] eqn:Hs; [|done].
  f_equal. apply sre_search_bounds in Hs as (Hb & He & _).
  apply findall_loop_fuel; [|done].
  unfold iterations. destruct (e =? b) eqn:Eb; [|apply Nat.eqb_neq in Eb]; lia.
Qed.

End SreFacts.

Module TagFacts.
Import Py Sre PyFacts SreFacts Notions.

Lemma sre_match_tag st (open close s : pystr) ptr :
  sre_match false st (tag_pattern open close) s ptr [] =
  if startswith open s then
    (fun j => (ptr + length open + j + length close,
               tag_marks (ptr + length open) (ptr + length open + j)))
      <$> find close (drop (length open) s)
  else None.
Proof.
  unfold tag_pattern. rewrite sre_match_literals.
  destruct (startswith open s); [|done]. simpl.
  erewrite min_repeat_one_ext.
  2:{ intros s' p'. simpl. apply sre_match_literals_nil. }
  simpl. apply (min_repeat_one_find close
    (fun p' => (p' + length close, tag_marks (ptr + length open) p'))).
Qed.

(** The search stops at the first opening tag that a closing tag
    follows; when none follows the first one, none follows any. *)
Lemma sre_search_tag (open close s : pystr) ptr :
  sre_search false (tag_pattern open close) s ptr =
  i ← find open s;
  j ← find close (drop (i + length open) s);
  Some (ptr + i, ptr + i + length open + j + length close,
        tag_marks (ptr + i + length open) (ptr + i + length open + j)).
Proof.
  revert ptr. induction s as [|c s IH]; intros ptr.
  - simpl sre_search. rewrite sre_match_tag.
    destruct (startswith open []) eqn:E.
    + rewrite (find_Some_0 open) by done. simpl.
      rewrite drop_nil. rewrite Nat.add_0_r.
      destruct (find close []) as [j|]; simpl; [|done]. done.
    + simpl. rewrite E. simpl. by destruct (find close (drop (length open) [])).
  - simpl sre_search. rewrite sre_match_tag.
    destruct (startswith open (c :: s)) eqn:E.
    + rewrite (find_Some_0 open) by done. simpl mbind. simpl option_bind.
      rewrite Nat.add_0_r.
      destruct (find close (drop (length open) (c :: s))) as [j|] eqn:Ej; simpl; [done|].
      rewrite IH. destruct (find open s) as [i|]; simpl; [|done].
      replace (drop (i + length open) s) with (drop (S i) (drop (length open) (c :: s))).
      * by rewrite find_None_drop.
      * rewrite drop_drop. replace (length open + S i) with (S (i + length open)) by lia. done.
    + rewrite (find_cons open) by done. rewrite IH.
      destruct (find open s) as [i|]; simpl; [|done].
      destruct (find close (drop (i + length open) s)) as [j|]; simpl; [|done].
      do 2 f_equal; [f_equal|]; try lia. f_equal; f_equal; lia.
Qed.

(** [m.group(1)] of the first match, for a subject cut at its first
    opening tag and at the first closing tag after it. *)
Lemma search_tag_first (open close pre x post : pystr) :
  find open (pre ++ open ++ x ++ close ++ post) = Some (length pre) ->
  find close (x ++ close ++ post) = Some (length x) ->
  exists m, search (tag_pattern open close) (pre ++ open ++ x ++ close ++ post) = Some m
            /\ group 1 m = Some x.
Proof.
  intros Ho Hc. unfold search. rewrite sre_search_tag, Ho. simpl.
  replace (drop (length pre + length open) (pre ++ open ++ x ++ close ++ post))
    with (x ++ close ++ post).
  2:{ rewrite <- drop_drop, drop_app_length. by rewrite drop_app_length. }
  rewrite Hc. simpl. eexists. split; [done|].
  unfold group. simpl. f_equal.
  rewrite (app_assoc pre open). rewrite <- (length_app pre open).
  apply slice_app.
Qed.

(** No match when the subject holds no opening tag followed by a closing
    one. *)
Lemma search_tag_none (open close s : pystr) :
  (forall pre x post, s <> pre ++ open ++ x ++ close ++ post) ->
  search (tag_pattern open close) s = None.
Proof.
  intros H. unfold search. rewrite sre_search_tag.
  destruct (find open s) as [i|] eqn:Ei; simpl; [|done].
  destruct (find close (drop (i + length open) s)) as [j|] eqn:Ej; simpl; [|done].
  exfalso. apply find_Some_inv in Ei as [Ei _]. apply find_Some_inv in Ej as [Ej _].
  rewrite Ej in Ei. by apply H in Ei.
Qed.

(** A match, whenever there is one, is of a decomposition of the
    subject, and its group is the text between the tags. *)
Lemma search_tag_Some (open close s : pystr) m :
  search (tag_pattern open close) s = Some m ->
  exists pre x post, s = pre ++ open ++ x ++ close ++ post /\ group 1 m = Some x
    /\ find open s = Some (length pre)
    /\ find close (x ++ close ++ post) = Some (length x).
Proof.
  unfold search. rewrite sre_search_tag.
  destruct (find open s) as [i|] eqn:Ei; simpl; [|done].
  destruct (find close (drop (i + length open) s)) as [j|] eqn:Ej; simpl; [|done].
  intros [= <-].
  pose proof Ei as [Ei1 Ei2]%find_Some_inv. pose proof Ej as [Ej1 Ej2]%find_Some_inv.
  set (rest := drop (i + length open) s) in *.
  exists (take i s), (take j rest), (drop (j + length close) rest).
  assert (length (take i s) = i) as Hi by (rewrite length_take; lia).
  assert (length (take j rest) = j) as Hj by (rewrite length_take; lia).
  rewrite <- Ej1, Hi, Hj. split_and!; [done| |done|done].
  unfold group. simpl. f_equal. unfold slice.
  replace (i + length open + j - (i + length open)) with j by lia. done.
Qed.

End TagFacts.

Module DealFacts.
Import Py Sre PyFacts SreFacts TrajectoryParser Notions.

#[local] Arguments N.eqb : simpl never.
#[local] Arguments startswith : simpl never.
#[local] Arguments sre_match : simpl never.
#[local] Arguments repeat_one : simpl never.

Lemma deal_text_length (a : pystr) : length (deal_text a) <= length a.
Proof.
  unfold deal_text. pose proof (lstrip_length a).
  destruct (lstrip a); [rewrite length_drop; lia | done].
Qed.

Lemma deal_text_suffix (a : pystr) :
  deal_text a = drop (length a - length (deal_text a)) a.
Proof.
  unfold deal_text. destruct (lstrip a) as [|c a'] eqn:E.
  - rewrite length_drop. destruct a as [|c a]; [done|]. simpl.
    f_equal. lia.
  - rewrite <- E. apply lstrip_suffix.
Qed.

Lemma deal_text_cons_space c (a : pystr) :
  isspace c = true -> a <> [] -> deal_text (c :: a) = deal_text a.
Proof.
  intros Hc Ha. unfold deal_text. simpl. rewrite Hc.
  destruct (lstrip a); [|done]. destruct a; [done|]. simpl.
  by rewrite Nat.sub_0_r.
Qed.

(** Content that does not begin with whitespace is taken whole. *)
Lemma deal_text_id c (a : pystr) : isspace c = false -> deal_text (c :: a) = c :: a.
Proof. intros Hc. unfold deal_text. simpl. by rewrite Hc. Qed.

Local Ltac notin := first [done | by apply not_elem_of_cons].

Section Tail.
Variable st : nat.
Variable close' : pystr.
Let close := 60%N :: close'.
Variable rest : pystr.
Hypothesis Hrest : at_tag rest.

Lemma startswith_close_cons c (s : pystr) :
  c <> 60%N -> startswith close (c :: s) = false.
Proof.
  intros Hc. unfold close.
  change (startswith (60%N :: close') (c :: s)) with ((60 =? c)%N && startswith close' s).
  replace (60 =? c)%N with false; [done|].
  symmetry. by apply N.eqb_neq.
Qed.

Lemma rest_no_space :
  match rest with
  | c :: _ => isspace c = false /\ charset_match (NOT_LITERAL 60) c = false
  | [] => True
  end.
Proof. destruct rest as [|c r]; [done|]. simpl in Hrest. by subst c. Qed.

(** [\s*</DEAL>] after the group. *)
Lemma repeat_one_space_close (a : pystr) ptr count ms :
  60%N ∉ a ->
  repeat_one
    (fun s' p' => sre_match false st (literals close) s' p' ms)
    CATEGORY_SPACE 0 (a ++ rest) ptr count
  = if forallb isspace a && startswith close rest
    then Some (ptr + length a + length close, ms) else None.
Proof.
  revert ptr count. induction a as [|c a IH]; intros ptr count Ha.
  - simpl app. simpl forallb. simpl length. rewrite Nat.add_0_r. simpl andb.
    pose proof rest_no_space as Hr. destruct rest as [|c r].
    + by rewrite repeat_one_nil, sre_match_literals_nil.
    + rewrite repeat_one_cons. simpl charset_match. destruct Hr as [-> _].
      by rewrite sre_match_literals_nil.
  - apply not_elem_of_cons in Ha as [Hc Ha].
    rewrite <- app_comm_cons, repeat_one_cons. simpl charset_match. simpl forallb.
    rewrite sre_match_literals_nil, startswith_close_cons by done.
    rewrite IH by done. simpl (0 <=? _). cbv iota.
    destruct (isspace c); [|done]. rewrite andb_true_l.
    destruct (forallb isspace a && startswith close rest); [|done].
    do 2 f_equal. simpl. lia.
Qed.

(** [([^<]+)\s*</DEAL>]: the group takes all of the content. *)
Lemma repeat_one_group_close (a : pystr) b ptr count ms :
  60%N ∉ a ->
  repeat_one
    (fun s' p' =>
       sre_match false st (MARK 1 :: REPEAT_ONE 0 CATEGORY_SPACE :: literals close)
         s' p' ((0, b) :: ms))
    (NOT_LITERAL 60) 1 (a ++ rest) ptr count
  = if (1 <=? count + length a) && startswith close rest
    then Some (ptr + length a + length close, (1, ptr + length a) :: (0, b) :: ms)
    else None.
Proof.
  revert ptr count. induction a as [|c a IH]; intros ptr count Ha.
  - simpl app. simpl length. rewrite !Nat.add_0_r.
    pose proof (repeat_one_space_close [] ptr 0 ((1, ptr) :: (0, b) :: ms)) as H.
    simpl app in H. simpl forallb in H. simpl length in H.
    rewrite Nat.add_0_r in H. simpl andb in H.
    pose proof rest_no_space as Hr. destruct rest as [|c r].
    + rewrite repeat_one_nil. destruct (1 <=? count); [|done].
      rewrite sre_match_MARK, sre_match_REPEAT_ONE. apply H. notin.
    + rewrite repeat_one_cons. destruct Hr as [_ ->].
      destruct (1 <=? count); [|done].
      rewrite sre_match_MARK, sre_match_REPEAT_ONE. apply H. notin.
  - apply not_elem_of_cons in Ha as [Hc Ha].
    rewrite <- app_comm_cons, repeat_one_cons. simpl charset_match.
    assert ((c =? 60)%N = false) as Hc' by (apply N.eqb_neq; congruence).
    rewrite Hc'. simpl negb. cbv iota.
    rewrite IH by done.
    replace (1 <=? S count + length a) with true by (symmetry; apply Nat.leb_le; lia).
    replace (1 <=? count + length (c :: a)) with true
      by (symmetry; apply Nat.leb_le; simpl; lia).
    simpl andb. destruct (startswith close rest) eqn:E.
    + do 2 f_equal; [simpl; lia|]. do 2 f_equal. simpl. lia.
    + destruct (1 <=? count); [|done].
      rewrite sre_match_MARK, sre_match_REPEAT_ONE.
      pose proof (repeat_one_space_close (c :: a) ptr 0 ((1, ptr) :: (0, b) :: ms)) as H.
      rewrite E, andb_false_r in H. apply H. notin.
Qed.

Lemma sre_match_group_close (a : pystr) ptr ms :
  60%N ∉ a ->
  sre_match false st
    (MARK 0 :: REPEAT_ONE 1 (NOT_LITERAL 60) :: MARK 1
       :: REPEAT_ONE 0 CATEGORY_SPACE :: literals close)
    (a ++ rest) ptr ms
  = if bool_decide (a <> []) && startswith close rest
    then Some (ptr + length a + length close, (1, ptr + length a) :: (0, ptr) :: ms)
    else None.
Proof.
  intros Ha. rewrite sre_match_MARK, sre_match_REPEAT_ONE.
  rewrite (repeat_one_group_close a ptr ptr 0 ms Ha).
  destruct a; done.
Qed.

(** [\s*([^<]+)\s*</DEAL>]: the leading whitespace goes to the first
    repeat, but for one character when there is nothing else. *)
Lemma repeat_one_space_group_close (a : pystr) ptr count ms :
  60%N ∉ a ->
  repeat_one
    (fun s' p' =>
       sre_match false st
         (MARK 0 :: REPEAT_ONE 1 (NOT_LITERAL 60) :: MARK 1
            :: REPEAT_ONE 0 CATEGORY_SPACE :: literals close)
         s' p' ms)
    CATEGORY_SPACE 0 (a ++ rest) ptr count
  = if bool_decide (a <> []) && startswith close rest
    then Some (ptr + length a + length close,
               (1, ptr + length a)
                 :: (0, ptr + length a - length (deal_text a)) :: ms)
    else None.
Proof.
  revert ptr count. induction a as [|c a IH]; intros ptr count Ha.
  - simpl app.
    pose proof (sre_match_group_close [] ptr ms) as H. simpl app in H.
    rewrite (bool_decide_eq_false_2 ([] <> [])) in * by naive_solver.
    simpl andb in *. cbv iota in *.
    pose proof rest_no_space as Hr. destruct rest as [|c r].
    + rewrite repeat_one_nil. apply H. notin.
    + rewrite repeat_one_cons. simpl charset_match. destruct Hr as [-> _].
      apply H. notin.
  - apply not_elem_of_cons in Ha as [Hc Ha].
    rewrite <- app_comm_cons, repeat_one_cons. simpl charset_match.
    simpl Nat.leb. cbv iota.
    pose proof (sre_match_group_close (c :: a) ptr ms) as H.
    rewrite <- app_comm_cons in H.
    rewrite H by notin. clear H.
    rewrite IH by done.
    rewrite (bool_decide_eq_true_2 (c :: a <> [])) by done. simpl andb.
    destruct (startswith close rest) eqn:E; [|by rewrite andb_false_r; destruct (isspace c)].
    rewrite andb_true_r. destruct (isspace c) eqn:Ec.
    + destruct a as [|c' a].
      * rewrite bool_decide_eq_false_2 by naive_solver.
        unfold deal_text. simpl lstrip. rewrite Ec. simpl.
        replace (ptr + 1 - 1) with ptr by lia. done.
      * rewrite bool_decide_eq_true_2 by done.
        rewrite (deal_text_cons_space c (c' :: a)) by done.
        pose proof (deal_text_length (c' :: a)).
        do 2 f_equal; [simpl; lia|]. f_equal; [f_equal; simpl; lia|].
        f_equal. f_equal. simpl in *. lia.
    + rewrite (deal_text_id c a) by done.
      replace (ptr + length (c :: a) - length (c :: a)) with ptr by lia. done.
Qed.

End Tail.

(** A match of the deal pattern at an opening tag whose content has no
    [<]: it needs some content and the closing tag right after it. *)
Lemma sre_match_deal st (a rest : pystr) ptr :
  60%N ∉ a -> at_tag rest ->
  sre_match false st deal_pattern (DEAL ++ a ++ rest) ptr [] =
  if bool_decide (a <> []) && startswith END_DEAL rest
  then Some (ptr + 6 + length a + 7,
             [(1, ptr + 6 + length a);
              (0, ptr + 6 + length a - length (deal_text a))])
  else None.
Proof.
  intros Ha Hrest. unfold deal_pattern.
  rewrite sre_match_literals, startswith_app, drop_app_length.
  change (length (str "<DEAL>")) with 6.
  change (literals (str "<DEAL>") ++ ?x) with x.
  cbn [app]. rewrite sre_match_REPEAT_ONE.
  apply (repeat_one_space_group_close st (str "/DEAL>") rest Hrest a (ptr + 6) 0 [] Ha).
Qed.

(** Where the subject does not begin with the opening tag there is no
    match. *)
Lemma sre_match_deal_none ma st (s : pystr) ptr :
  startswith DEAL s = false -> sre_match ma st deal_pattern s ptr [] = None.
Proof. intros H. unfold deal_pattern, DEAL in *. by rewrite sre_match_literals, H. Qed.

Lemma headfree_DEAL : headfree DEAL.
Proof. apply (bool_decide_unpack _). by vm_compute. Qed.

End DealFacts.

Module DealFindall.
Import Py Sre PyFacts SreFacts TrajectoryParser DealFacts Notions.

#[local] Arguments N.eqb : simpl never.
#[local] Arguments startswith : simpl never.
#[local] Arguments sre_match : simpl never.
#[local] Arguments repeat_one : simpl never.
#[local] Arguments DEAL : simpl never.
#[local] Arguments END_DEAL : simpl never.

Lemma headfree_END_DEAL : headfree END_DEAL.
Proof. apply (bool_decide_unpack _). by vm_compute. Qed.

(** No match before the first opening tag, and the first opening tag
    with content and a closing tag is the match. *)
Lemma sre_search_deal_none ma (t : pystr) ptr :
  find DEAL t = None -> sre_search ma deal_pattern t ptr = None.
Proof.
  revert ma ptr. induction t as [|c t IH]; intros ma ptr H.
  - rewrite sre_search_unfold. by rewrite sre_match_deal_none.
  - rewrite sre_search_unfold.
    rewrite sre_match_deal_none by by apply find_None_startswith.
    eauto using find_None_tail.
Qed.

Lemma sre_search_deal (t a rest : pystr) ptr :
  find DEAL t = None -> 60%N ∉ a -> a <> [] ->
  sre_search false deal_pattern (t ++ DEAL ++ a ++ END_DEAL ++ rest) ptr =
  Some (ptr + length t, ptr + length t + 6 + length a + 7,
        [(1, ptr + length t + 6 + length a);
         (0, ptr + length t + 6 + length a - length (deal_text a))]).
Proof.
  intros Ht Ha Hne. revert ptr. induction t as [|c t IH]; intros ptr.
  - rewrite app_nil_l. simpl length. rewrite Nat.add_0_r.
    assert (sre_match false ptr deal_pattern (DEAL ++ a ++ END_DEAL ++ rest) ptr [] =
            Some (ptr + 6 + length a + 7,
                  [(1, ptr + 6 + length a);
                   (0, ptr + 6 + length a - length (deal_text a))])) as E.
    { rewrite sre_match_deal by done.
      by rewrite bool_decide_eq_true_2, startswith_app by done. }
    rewrite sre_search_unfold. by rewrite E.
  - rewrite <- app_comm_cons. rewrite sre_search_unfold.
    rewrite sre_match_deal_none.
    2:{ rewrite app_comm_cons. apply startswith_headfree;
          [apply headfree_DEAL | done | by apply find_None_startswith]. }
    rewrite IH by eauto using find_None_tail. simpl length.
    do 2 f_equal; [f_equal; lia|]. f_equal; [f_equal; lia|].
    do 2 f_equal. lia.
Qed.

Lemma slice_suffix (x a y : pystr) n :
  n <= length a ->
  slice (length x + length a - n) (length x + length a) (x ++ a ++ y)
  = drop (length a - n) a.
Proof.
  intros Hn. unfold slice.
  replace (length x + length a - n) with (length x + (length a - n)) by lia.
  rewrite <- drop_drop, drop_app_length.
  replace (length x + length a - (length x + (length a - n))) with n by lia.
  rewrite drop_app_le by lia. rewrite take_app_le by (rewrite length_drop; lia).
  apply take_ge. rewrite length_drop. lia.
Qed.

Lemma deal_spans_cons a t spans :
  deal_spans ((a, t) :: spans) = DEAL ++ a ++ END_DEAL ++ t ++ deal_spans spans.
Proof. done. Qed.

Lemma findall_loop_deal spans (pre t0 : pystr) fuel :
  find DEAL t0 = None -> Forall deal_span_ok spans ->
  iterations (pre ++ t0 ++ deal_spans spans) (length pre) false <= fuel ->
  findall_loop fuel deal_pattern (pre ++ t0 ++ deal_spans spans) (length pre) false
  = (fun span => deal_text span.1) <$> spans.
Proof.
  revert pre t0 fuel.
  induction spans as [|[a t] spans IH]; intros pre t0 fuel Ht0 Hs Hf.
  - destruct fuel as [|fuel]; [unfold iterations in Hf; lia|].
    simpl deal_spans. rewrite app_nil_r in *. rewrite findall_loop_S.
    replace (length (pre ++ t0) <? length pre) with false
      by (symmetry; apply Nat.ltb_ge; rewrite length_app; lia).
    rewrite drop_app_length. by rewrite sre_search_deal_none.
  - apply Forall_cons in Hs as [(Hne & Ha & Ht) Hs]. simpl in Hne, Ha, Ht.
    destruct fuel as [|fuel]; [unfold iterations in Hf; lia|].
    rewrite deal_spans_cons in *.
    remember (t ++ deal_spans spans) as rest eqn:Hrest.
    assert (pre ++ t0 ++ DEAL ++ a ++ END_DEAL ++ rest
            = (pre ++ t0 ++ DEAL ++ a ++ END_DEAL) ++ rest) as Hstr
      by (by rewrite <- !app_assoc).
    assert (length (pre ++ t0 ++ DEAL ++ a ++ END_DEAL)
            = length pre + length t0 + 6 + length a + 7) as Hlen
      by (rewrite !length_app; change (length DEAL) with 6;
          change (length END_DEAL) with 7; lia).
    rewrite findall_loop_S.
    replace (length (pre ++ t0 ++ DEAL ++ a ++ END_DEAL ++ rest) <? length pre)
      with false by (symmetry; apply Nat.ltb_ge; rewrite length_app; lia).
    rewrite drop_app_length.
    rewrite sre_search_deal by done.
    rewrite fmap_cons, group1_marks. cbn [default from_option fst]. unfold id. f_equal.
    + replace (pre ++ t0 ++ DEAL ++ a ++ END_DEAL ++ rest)
        with ((pre ++ t0 ++ DEAL) ++ a ++ END_DEAL ++ rest)
        by (by rewrite <- !app_assoc).
      replace (length pre + length t0 + 6) with (length (pre ++ t0 ++ DEAL))
        by (rewrite !length_app; change (length DEAL) with 6; lia).
      rewrite slice_suffix by apply deal_text_length.
      by rewrite <- deal_text_suffix.
    + replace (length pre + length t0 + 6 + length a + 7 =? length pre + length t0)
        with false by (symmetry; apply Nat.eqb_neq; lia).
      rewrite <- Hlen, Hstr, Hrest. apply IH; [done..|].
      rewrite <- Hrest, <- Hstr, Hlen. unfold iterations in *.
      rewrite Hstr, length_app, Hlen in Hf. rewrite Hstr, length_app, Hlen.
      lia.
Qed.

(** [findall] on a subject made of tag pairs whose contents have no
    [<]: one entry per pair, in order. *)
Lemma findall_deal_spans (t0 : pystr) spans :
  find DEAL t0 = None -> Forall deal_span_ok spans ->
  findall deal_pattern (t0 ++ deal_spans spans)
  = (fun span => deal_text span.1) <$> spans.
Proof.
  intros Ht0 Hs. unfold findall.
  by apply (findall_loop_deal spans [] t0).
Qed.

(** A match of the deal pattern sets the marks of group 1 around one or
    more characters other than [<]. *)
Lemma sre_match_deal_sound ma st (s : pystr) ptr e ms :
  sre_match ma st deal_pattern s ptr [] = Some (e, ms) ->
  exists j1 j2, 1 <= j2 /\ 6 + j1 + j2 <= length s
    /\ Forall (fun c => c <> 60%N) (take j2 (drop (6 + j1) s))
    /\ ms = [(1, ptr + 6 + j1 + j2); (0, ptr + 6 + j1)].
Proof.
  unfold deal_pattern. rewrite sre_match_literals.
  destruct (startswith (str "<DEAL>") s) eqn:E; [|done].
  apply startswith_drop in E. change (length (str "<DEAL>")) with 6 in *.
  cbn [app]. rewrite sre_match_REPEAT_ONE.
  intros (j1 & Hj1 & _ & _ & H)%repeat_one_sound.
  rewrite sre_match_MARK, sre_match_REPEAT_ONE in H.
  apply repeat_one_sound in H as (j2 & Hj2 & Hmin & Hall & H).
  rewrite sre_match_MARK, sre_match_REPEAT_ONE in H.
  apply repeat_one_sound in H as (j3 & Hj3 & _ & _ & H).
  rewrite sre_match_literals_nil in H.
  destruct (startswith (str "</DEAL>") _); [|done].
  destruct (ma && _); [done|]. injection H as _ <-.
  rewrite !length_drop in *. rewrite drop_drop in Hall.
  exists j1, j2. split_and!; [lia | lia | | do 3 f_equal; lia].
  eapply Forall_impl; [done|]. intros c Hc. simpl in Hc.
  intros ->. done.
Qed.

Lemma findall_loop_deal_ok fuel (string : pystr) start ma :
  Forall deal_entry_ok (findall_loop fuel deal_pattern string start ma).
Proof.
  revert start ma. induction fuel as [|fuel IH]; intros start ma; simpl; [done|].
  destruct (length string <? start) eqn:Hlt; [done|]. apply Nat.ltb_ge in Hlt.
  destruct (sre_search ma deal_pattern (drop start string) start)
    as [[[b e] ms]|] eqn:Hs; [|done].
  constructor; [|done].
  apply sre_search_sound in Hs as (j & ma' & Hj & -> & _ & Hm).
  apply sre_match_deal_sound in Hm as (j1 & j2 & Hj2 & Hlen & Hall & ->).
  rewrite !drop_drop in Hall. rewrite !length_drop in Hlen.
  rewrite group1_marks. cbn [default from_option]. unfold slice, id.
  replace (start + j + 6 + j1 + j2 - (start + j + 6 + j1)) with j2 by lia.
  replace (start + j + 6 + j1) with (start + (j + (6 + j1))) by lia.
  split.
  - intros H%(f_equal length). rewrite length_take, length_drop in H.
    simpl in H. lia.
  - intros Hin. rewrite Forall_forall in Hall. by apply Hall in Hin.
Qed.

(** Every entry of [findall] for the deal pattern has a character and
    no [<]. *)
Lemma findall_deal_ok (string : pystr) :
  Forall deal_entry_ok (findall deal_pattern string).
Proof. apply findall_loop_deal_ok. Qed.

(** No match begins at an opening tag whose content, up to the closing
    tag, is empty or has a [<]. *)
Lemma sre_match_deal_empty st (post : pystr) ptr :
  sre_match false st deal_pattern (DEAL ++ END_DEAL ++ post) ptr [] = None.
Proof.
  pose proof (sre_match_deal st [] (END_DEAL ++ post) ptr) as H.
  rewrite app_nil_l in H. rewrite H; [|apply not_elem_of_nil|done].
  by rewrite bool_decide_eq_false_2 by naive_solver.
Qed.

Lemma split_first (c : N) (x : pystr) :
  c ∈ x -> exists a x', x = a ++ c :: x' /\ c ∉ a.
Proof.
  induction x as [|d x IH]; [by intros ?%elem_of_nil|].
  destruct (decide (c = d)) as [->|Hne].
  - intros _. exists [], x. split; [done | apply not_elem_of_nil].
  - intros [?|Hin]%elem_of_cons; [done|].
    destruct (IH Hin) as (a & x' & -> & Ha). exists (d :: a), x'.
    split; [done|]. by apply not_elem_of_cons.
Qed.

Lemma sre_match_deal_lt st (x post : pystr) ptr :
  60%N ∈ x -> find END_DEAL x = None ->
  sre_match false st deal_pattern (DEAL ++ x ++ END_DEAL ++ post) ptr [] = None.
Proof.
  intros (a & x' & -> & Ha)%split_first Hx.
  rewrite <- (app_assoc a). rewrite sre_match_deal; [|done|done].
  replace (startswith END_DEAL ((60%N :: x') ++ END_DEAL ++ post)) with false;
    [by rewrite andb_false_r|].
  symmetry. apply startswith_headfree; [apply headfree_END_DEAL | done |].
  apply (find_None_drop _ _ (length a)) in Hx. rewrite drop_app_length in Hx.
  by apply find_None_startswith.
Qed.

Lemma deal_text_lstrip (a : pystr) : a <> [] -> lstrip a = a -> deal_text a = a.
Proof. intros Ha E. unfold deal_text. rewrite E. by destruct a. Qed.

Lemma findall_deal_none (s : pystr) :
  find DEAL s = None -> findall deal_pattern s = [].
Proof. intros H. by rewrite findall_unfold, sre_search_deal_none. Qed.

Lemma find_DEAL_END_DEAL (t : pystr) :
  find DEAL t = None -> find DEAL (END_DEAL ++ t) = None.
Proof.
  intros Ht. change (END_DEAL ++ t) with (60%N :: str "/DEAL>" ++ t).
  rewrite find_cons by done.
  change DEAL with (60%N :: str "DEAL>") in *.
  rewrite find_app_notin; [done| |done].
  apply (bool_decide_unpack _). by vm_compute.
Qed.

Lemma sre_search_deal_skip (t v : pystr) ptr :
  find DEAL t = None ->
  sre_search false deal_pattern (t ++ 60%N :: v) ptr
  = sre_search false deal_pattern (60%N :: v) (ptr + length t).
Proof.
  revert ptr. induction t as [|c t IH]; intros ptr Ht.
  - by rewrite app_nil_l, Nat.add_0_r.
  - rewrite <- app_comm_cons, sre_search_unfold, sre_match_deal_none.
    + rewrite IH by eauto using find_None_tail. f_equal. simpl. lia.
    + rewrite app_comm_cons.
      apply (startswith_headfree_cons 60 (str "DEAL>"));
        [apply headfree_DEAL | done | by apply find_None_startswith].
Qed.

(** A tag pair whose content is empty or has a [<], alone in a text:
    nothing is found. *)
Lemma findall_deal_pair_none (t0 x t1 : pystr) :
  find DEAL t0 = None -> find DEAL t1 = None ->
  x = [] \/ (60%N ∈ x /\ find END_DEAL x = None /\ find DEAL x = None) ->
  findall deal_pattern (t0 ++ DEAL ++ x ++ END_DEAL ++ t1) = [].
Proof.
  intros Ht0 Ht1 Hx. rewrite findall_unfold.
  change (DEAL ++ x ++ END_DEAL ++ t1)
    with (60%N :: str "DEAL>" ++ x ++ END_DEAL ++ t1).
  rewrite sre_search_deal_skip by done.
  rewrite sre_search_unfold.
  change (60%N :: str "DEAL>" ++ x ++ END_DEAL ++ t1)
    with (DEAL ++ x ++ END_DEAL ++ t1).
  assert (sre_match false (0 + length t0) deal_pattern
            (DEAL ++ x ++ END_DEAL ++ t1) (0 + length t0) [] = None) as ->.
  { destruct Hx as [->|(Hin & Hend & _)].
    - apply sre_match_deal_empty.
    - by apply sre_match_deal_lt. }
  change (DEAL ++ x ++ END_DEAL ++ t1)
    with (60%N :: str "DEAL>" ++ x ++ END_DEAL ++ t1).
  rewrite sre_search_deal_none; [done|].
  change DEAL with (60%N :: str "DEAL>").
  apply find_app_notin; [apply (bool_decide_unpack _); by vm_compute|].
  change (60%N :: str "DEAL>") with DEAL.
  destruct Hx as [->|(_ & _ & Hx)].
  - by apply find_DEAL_END_DEAL.
  - change (END_DEAL ++ t1) with (60%N :: str "/DEAL>" ++ t1).
    change DEAL with (60%N :: str "DEAL>") in *.
    apply find_app_head; [apply headfree_DEAL | done |].
    by apply (find_DEAL_END_DEAL t1).
Qed.

End DealFindall.

Module ParseRoundFacts.
Import Py Sre PyFacts SreFacts TagFacts TrajectoryParser DealFacts DealFindall Notions.

Lemma scratchpad_pattern_tag : scratchpad_pattern = tag_pattern SCRATCHPAD END_SCRATCHPAD.
Proof. done. Qed.

Lemma answer_pattern_tag : answer_pattern = tag_pattern ANSWER END_ANSWER.
Proof. done. Qed.

Lemma tag_text_first (open close pre x post : pystr) :
  headfree open -> headfree close ->
  find open pre = None -> find close x = None ->
  tag_text open close (pre ++ open ++ x ++ close ++ post) = Some x.
Proof.
  intros Ho Hc Hpre Hx. unfold tag_text.
  destruct (search_tag_first open close pre x post) as (m & -> & Hm); [| |done].
  - by apply find_app_headfree.
  - by apply find_app_headfree.
Qed.

Lemma tag_text_none (open close s : pystr) :
  (forall pre x post, s <> pre ++ open ++ x ++ close ++ post) ->
  tag_text open close s = None.
Proof. intros H. unfold tag_text. by rewrite search_tag_none. Qed.

Lemma group1_strip_tag (open close s : pystr) :
  match search (tag_pattern open close) s with
  | Some m => Some <$> group1_strip m
  | None => Return None
  end = Return (strip <$> tag_text open close s).
Proof.
  unfold tag_text. destruct (search _ s) as [m|] eqn:E; [|done].
  apply search_tag_Some in E as (pre & x & post & _ & Hg & _).
  unfold group1_strip. simpl. by rewrite Hg.
Qed.

Lemma group1_strip_tag_or (open close s : pystr) (dflt : outcome json) :
  match search (tag_pattern open close) s with
  | Some m => JStr <$> group1_strip m
  | None => dflt
  end = match tag_text open close s with
        | Some x => Return (JStr (strip x))
        | None => dflt
        end.
Proof.
  unfold tag_text. destruct (search _ s) as [m|] eqn:E; [|done].
  apply search_tag_Some in E as (pre & x & post & _ & Hg & _).
  unfold group1_strip. simpl. by rewrite Hg.
Qed.

(** [_parse_round] returns for a dict whose [full_answer] is text (or
    absent) and whose [agent] can be hashed. *)
Lemma _parse_round_returns (self : TrajectoryParser) (m : gmap pystr json) idx (s : pystr) :
  field m "full_answer" = JStr s ->
  hashable (field m "agent") = true ->
  _parse_round self (JObj m) idx = Return (parsed self m idx s).
Proof.
  unfold field. intros Hs Ha. unfold _parse_round, get.
  cbn [mbind outcome_bind]. rewrite Hs. cbn [re_findall re_search mbind outcome_bind].
  rewrite scratchpad_pattern_tag, group1_strip_tag.
  cbn [mbind outcome_bind].
  rewrite answer_pattern_tag, group1_strip_tag_or.
  assert (config_get (config self) (default (JStr []) (m !! str "agent"))
          = Return match default (JStr []) (m !! str "agent") with
                   | JStr a => config self !! a
                   | _ => None
                   end) as ->.
  { unfold config_get. by destruct (default (JStr []) (m !! str "agent")). }
  unfold parsed, field.
  destruct (tag_text ANSWER END_ANSWER s); done.
Qed.

(** It raises otherwise. *)
Lemma _parse_round_inv (self : TrajectoryParser) rd idx r :
  _parse_round self rd idx = Return r ->
  exists (m : gmap pystr json) (s : pystr),
    rd = JObj m /\ field m "full_answer" = JStr s
    /\ hashable (field m "agent") = true /\ r = parsed self m idx s.
Proof.
  intros H. destruct rd as [| | | | |l|m]; try done.
  destruct (field m "full_answer") as [| | | |s| |] eqn:Hs;
    try (unfold field in Hs; unfold _parse_round, get in H;
         cbn [mbind outcome_bind] in H; rewrite Hs in H; done).
  destruct (hashable (field m "agent")) eqn:Ha.
  - rewrite (_parse_round_returns self m idx s) in H by done.
    injection H as <-. by exists m, s.
  - exfalso. unfold field in *. unfold _parse_round, get in H.
    cbn [mbind outcome_bind] in H. rewrite Hs in H.
    cbn [re_findall re_search mbind outcome_bind] in H.
    rewrite scratchpad_pattern_tag, group1_strip_tag in H.
    cbn [mbind outcome_bind] in H.
    rewrite answer_pattern_tag, group1_strip_tag_or in H.
    unfold config_get in H.
    destruct (default (JStr []) (m !! str "agent")); try done;
      destruct (tag_text ANSWER END_ANSWER s); done.
Qed.

Lemma headfree_SCRATCHPAD : headfree SCRATCHPAD.
Proof. apply (bool_decide_unpack _). by vm_compute. Qed.
Lemma headfree_END_SCRATCHPAD : headfree END_SCRATCHPAD.
Proof. apply (bool_decide_unpack _). by vm_compute. Qed.
Lemma headfree_ANSWER : headfree ANSWER.
Proof. apply (bool_decide_unpack _). by vm_compute. Qed.
Lemma headfree_END_ANSWER : headfree END_ANSWER.
Proof. apply (bool_decide_unpack _). by vm_compute. Qed.

End ParseRoundFacts.

Section ParseRound.
Import Py Sre TrajectoryParser Notions Samples.
Import PyFacts SreFacts TagFacts DealFacts DealFindall ParseRoundFacts.

#[local] Arguments N.eqb : simpl never.
#[local] Arguments startswith : simpl never.
#[local] Arguments sre_match : simpl never.
#[local] Arguments repeat_one : simpl never.
#[local] Arguments DEAL : simpl never.
#[local] Arguments END_DEAL : simpl never.

(** C5: scratchpad extraction. For a round whose [full_answer] is text
    and whose agent can be hashed, [_parse_round] returns; when the text
    is [pre <SCRATCHPAD> x </SCRATCHPAD> post] with [x] the first span (no
    opening tag in [pre], no closing tag in [x]; [x] may hold any
    character, line ends included), [scratchpad_reasoning] is [x.strip()]
    and [has_scratchpad] is true; when the text holds no such span,
    [scratchpad_reasoning] is [None] and [has_scratchpad] is false. *)
Theorem scratchpad_extraction (self : TrajectoryParser)
    (m : gmap pystr json) (idx : nat) (s : pystr) :
  field m "full_answer" = JStr s ->
  hashable (field m "agent") = true ->
  exists r, _parse_round self (JObj m) idx = Return r
    /\ (forall pre x post,
          s = pre ++ SCRATCHPAD ++ x ++ END_SCRATCHPAD ++ post ->
          find SCRATCHPAD pre = None -> find END_SCRATCHPAD x = None ->
          scratchpad_reasoning r = Some (strip x) /\ has_scratchpad r = true)
    /\ ((forall pre x post, s <> pre ++ SCRATCHPAD ++ x ++ END_SCRATCHPAD ++ post) ->
        scratchpad_reasoning r = None /\ has_scratchpad r = false).
Proof.
  intros Hs Ha. exists (parsed self m idx s).
  split; [by apply _parse_round_returns|].
  unfold parsed; cbn [scratchpad_reasoning has_scratchpad public_answer]. split.
  - intros pre x post -> Hpre Hx.
    rewrite tag_text_first by
      (done || apply headfree_SCRATCHPAD || apply headfree_END_SCRATCHPAD).
    done.
  - intros H. by rewrite tag_text_none.
Qed.

Lemma scratchpad_extraction_witness :
  exists r,
    _parse_round no_parser (JObj scratchpad_round) 0 = Return r
    /\ scratchpad_reasoning r = Some (str "keep" ++ [10%N] ++ str " quiet")
    /\ has_scratchpad r = true.
Proof.
  destruct (scratchpad_extraction no_parser scratchpad_round 0 _ eq_refl eq_refl)
    as (r & Hr & Hfirst & _).
  exists r. split; [exact Hr|].
  apply (Hfirst (str "plan ") two_lines (str " <ANSWER>ok</ANSWER>")); reflexivity.
Defined.

(** C3: public-answer precedence. When [full_answer] is
    [pre <ANSWER> x </ANSWER> post] with [x] the first span,
    [public_answer] is [x.strip()] whatever the round's own
    [public_answer] field holds; when it holds no span, [public_answer]
    is that field, and the empty string when the field is absent. *)
Theorem public_answer_precedence (self : TrajectoryParser)
    (m : gmap pystr json) (idx : nat) (s : pystr) :
  field m "full_answer" = JStr s ->
  hashable (field m "agent") = true ->
  exists r, _parse_round self (JObj m) idx = Return r
    /\ (forall pre x post,
          s = pre ++ ANSWER ++ x ++ END_ANSWER ++ post ->
          find ANSWER pre = None -> find END_ANSWER x = None ->
          public_answer r = JStr (strip x))
    /\ ((forall pre x post, s <> pre ++ ANSWER ++ x ++ END_ANSWER ++ post) ->
        match m !! str "public_answer" with
        | Some v => public_answer r = v
        | None => public_answer r = JStr []
        end).
Proof.
  intros Hs Ha. exists (parsed self m idx s).
  split; [by apply _parse_round_returns|].
  unfold parsed; cbn [scratchpad_reasoning has_scratchpad public_answer]. split.
  - intros pre x post -> Hpre Hx.
    rewrite tag_text_first by
      (done || apply headfree_ANSWER || apply headfree_END_ANSWER).
    done.
  - intros H. rewrite tag_text_none by done. unfold field.
    by destruct (m !! str "public_answer").
Qed.

Lemma public_answer_precedence_witness :
  exists r,
    _parse_round no_parser
      (JObj (round_dict [("full_answer", "I say <ANSWER> take A1 </ANSWER>.");
                         ("public_answer", "take B2")])) 0 = Return r
    /\ public_answer r = JStr (str "take A1").
Proof.
  destruct (public_answer_precedence no_parser
    (round_dict [("full_answer", "I say <ANSWER> take A1 </ANSWER>.");
                 ("public_answer", "take B2")]) 0 _ eq_refl eq_refl)
    as (r & Hr & Hfirst & _).
  exists r. split; [exact Hr|].
  apply (Hfirst (str "I say ") (str " take A1 ") (str ".")); reflexivity.
Defined.

(** C4, as the code has it: deal extraction. A round whose
    [full_answer] holds no [<DEAL>] has no deals and [has_deal] false. A
    round whose [full_answer] holds the two spans [<DEAL>a</DEAL>] and
    [<DEAL>b</DEAL>] and no other [<DEAL>], with [a] and [b] not empty,
    free of [<] and not beginning with whitespace, has the deals [a; b];
    and so for any number of spans, in their order. *)
Theorem deal_extraction (self : TrajectoryParser)
    (m : gmap pystr json) (idx : nat) (s : pystr) :
  field m "full_answer" = JStr s ->
  hashable (field m "agent") = true ->
  exists r, _parse_round self (JObj m) idx = Return r
    /\ (find DEAL s = None -> deals_proposed r = [] /\ has_deal r = false)
    /\ (forall t0 a t1 b t2,
          s = t0 ++ DEAL ++ a ++ END_DEAL ++ t1 ++ DEAL ++ b ++ END_DEAL ++ t2 ->
          find DEAL t0 = None -> find DEAL t1 = None -> find DEAL t2 = None ->
          deal_content a -> deal_content b ->
          deals_proposed r = [a; b] /\ has_deal r = true)
    /\ (forall t0 spans,
          s = t0 ++ deal_spans spans -> find DEAL t0 = None ->
          Forall (fun span => deal_content span.1 /\ find DEAL span.2 = None) spans ->
          deals_proposed r = fst <$> spans).
Proof.
  intros Hs Ha. exists (parsed self m idx s).
  split; [by apply _parse_round_returns|].
  unfold parsed; cbn [deals_proposed has_deal].
  assert (forall t0 spans,
    s = t0 ++ deal_spans spans -> find DEAL t0 = None ->
    Forall (fun span => deal_content span.1 /\ find DEAL span.2 = None) spans ->
    findall deal_pattern s = fst <$> spans) as Hspans.
  { intros t0 spans -> Ht0 Hok. rewrite findall_deal_spans; [|done|].
    - apply list_fmap_ext. intros i span Hi.
      rewrite Forall_lookup in Hok. destruct (Hok i span Hi) as [(? & ? & ?) _].
      by apply deal_text_lstrip.
    - eapply Forall_impl; [done|]. intros span [(? & ? & ?) ?]. done. }
  split_and!.
  - intros H. by rewrite findall_deal_none.
  - intros t0 a t1 b t2 E Ht0 Ht1 Ht2 Hca Hcb.
    rewrite (Hspans t0 [(a, t1); (b, t2)]); [done| |done|].
    + rewrite E. rewrite !deal_spans_cons. simpl deal_spans.
      by rewrite app_nil_r.
    + apply Forall_cons_2; [done|]. apply Forall_cons_2; [done|]. apply Forall_nil_2.
  - done.
Qed.

Lemma deal_extraction_witness :
  exists r,
    _parse_round no_parser
      (JObj (round_dict
         [("full_answer", "I offer <DEAL>A1,B2</DEAL> or else <DEAL>A2,B1</DEAL>.")]))
      0 = Return r
    /\ deals_proposed r = [str "A1,B2"; str "A2,B1"] /\ has_deal r = true.
Proof.
  destruct (deal_extraction no_parser
    (round_dict
       [("full_answer", "I offer <DEAL>A1,B2</DEAL> or else <DEAL>A2,B1</DEAL>.")])
    0 _ eq_refl eq_refl) as (r & Hr & _ & Htwo & _).
  exists r. split; [exact Hr|].
  apply (Htwo (str "I offer ") (str "A1,B2") (str " or else ") (str "A2,B1") (str "."));
    try reflexivity;
    (split; [discriminate | split; [apply (bool_decide_unpack _) |]; reflexivity]).
Defined.

(** C4 as the specification states it fails: the content of the span
    [<DEAL> x</DEAL>] is [ x], and the entry is [x]. *)
Lemma deal_extraction_counterexample :
  ~ (forall (self : TrajectoryParser) (m : gmap pystr json) (idx : nat)
            (a b : pystr) (r : parsed_round),
       a <> [] -> 60%N ∉ a -> b <> [] -> 60%N ∉ b ->
       field m "full_answer" = JStr (DEAL ++ a ++ END_DEAL ++ DEAL ++ b ++ END_DEAL) ->
       _parse_round self (JObj m) idx = Return r ->
       deals_proposed r = [a; b]).
Proof.
  intros H.
  specialize (H no_parser
    (round_dict [("full_answer", "<DEAL> x</DEAL><DEAL>y</DEAL>")]) 0
    (str " x") (str "y")
    (parsed no_parser
       (round_dict [("full_answer", "<DEAL> x</DEAL><DEAL>y</DEAL>")]) 0
       (str "<DEAL> x</DEAL><DEAL>y</DEAL>"))).
  assert (deals_proposed
    (parsed no_parser
       (round_dict [("full_answer", "<DEAL> x</DEAL><DEAL>y</DEAL>")]) 0
       (str "<DEAL> x</DEAL><DEAL>y</DEAL>")) = [str "x"; str "y"]) as E
    by (by vm_compute).
  rewrite E in H. discriminate H.
  - discriminate.
  - apply (bool_decide_unpack _). by vm_compute.
  - discriminate.
  - apply (bool_decide_unpack _). by vm_compute.
  - reflexivity.
  - by apply _parse_round_returns.
Qed.

(** C9: what deal extraction guarantees. Every entry of
    [deals_proposed] has a character and no [<]; [has_deal] is true
    exactly when there is an entry; and a tag pair whose content is empty
    or has a [<], alone in [full_answer], gives no entry. *)
Theorem deals_proposed_invariant (self : TrajectoryParser) (round_data : json)
    (idx : nat) (r : parsed_round) :
  _parse_round self round_data idx = Return r ->
  Forall deal_entry_ok (deals_proposed r)
  /\ (has_deal r = true <-> deals_proposed r <> [])
  /\ (forall t0 x t1,
        full_answer r = JStr (t0 ++ DEAL ++ x ++ END_DEAL ++ t1) ->
        find DEAL t0 = None -> find DEAL t1 = None ->
        x = [] \/ (60%N ∈ x /\ find END_DEAL x = None /\ find DEAL x = None) ->
        deals_proposed r = []).
Proof.
  intros H. apply _parse_round_inv in H as (m & s & -> & Hs & Ha & ->).
  unfold parsed; cbn [deals_proposed has_deal full_answer]. split_and!.
  - apply findall_deal_ok.
  - rewrite bool_decide_eq_true. destruct (findall deal_pattern s); simpl.
    + split; [lia | done].
    + split; [done | lia].
  - intros t0 x t1 [= ->] Ht0 Ht1 Hx. by apply findall_deal_pair_none.
Qed.

Lemma deals_proposed_invariant_witness :
  exists r,
    _parse_round no_parser
      (JObj (round_dict
         [("full_answer", "<DEAL></DEAL> <DEAL> A1 </DEAL> <DEAL>a<b</DEAL>")]))
      0 = Return r
    /\ deals_proposed r = [str "A1 "]
    /\ Forall deal_entry_ok (deals_proposed r)
    /\ (has_deal r = true <-> deals_proposed r <> []).
Proof.
  eexists. split; [reflexivity|]. split; [reflexivity|].
  pose proof (deals_proposed_invariant no_parser
    (JObj (round_dict
       [("full_answer", "<DEAL></DEAL> <DEAL> A1 </DEAL> <DEAL>a<b</DEAL>")]))
    0 _ eq_refl) as (H1 & H2 & _).
  split; [exact H1 | exact H2].
Defined.

End ParseRound.

Module ConvertFacts.
Import Py TrajectoryParser Notions.

Lemma foldl_convert_round (acc : list message) (rs : list parsed_round) :
  foldl convert_round acc rs = acc ++ (rs ≫= round_messages).
Proof.
  revert acc. induction rs as [|r rs IH]; intros acc.
  - simpl. by rewrite app_nil_r.
  - rewrite bind_cons. simpl foldl. rewrite IH. unfold convert_round, round_messages.
    destruct (truthy (prompt r)); simpl; by rewrite <- !app_assoc.
Qed.

Lemma lookup_bind_pair {A B} (f g : A -> B) (l : list A) (i : nat) :
  (l ≫= fun a => [f a; g a]) !! (2 * i) = f <$> l !! i
  /\ (l ≫= fun a => [f a; g a]) !! (2 * i + 1) = g <$> l !! i.
Proof.
  revert i. induction l as [|a l IH]; intros i; [done|].
  rewrite bind_cons. destruct i as [|i]; [done|].
  replace (2 * S i) with (S (S (2 * i))) by lia.
  replace (S (S (2 * i)) + 1) with (S (S (2 * i + 1))) by lia.
  apply IH.
Qed.

Lemma length_bind_pair {A B} (f g : A -> B) (l : list A) :
  length (l ≫= fun a => [f a; g a]) = 2 * length l.
Proof.
  induction l as [|a l IH]; [done|].
  rewrite bind_cons, length_app, IH. simpl. lia.
Qed.

Lemma truthy_JStr (s : pystr) : truthy (JStr s) = true <-> s <> [].
Proof.
  simpl. rewrite negb_true_iff, bool_decide_eq_false. done.
Qed.

End ConvertFacts.

Module ProcessFacts.
Import Py TrajectoryParser Notions.

Lemma foldl_process_step self (acc : list run * list file) (fs : list file) :
  foldl (process_step self) acc fs
  = (acc.1 ++ (fs ≫= runs_of self), acc.2 ++ filter (fun f => succeeds self f) fs).
Proof.
  revert acc. induction fs as [|f fs IH]; intros [rs ps].
  - simpl. by rewrite !app_nil_r.
  - rewrite bind_cons. simpl foldl. rewrite IH.
    unfold process_step, runs_of, succeeds. rewrite filter_cons.
    destruct (process_file self f) as [rs'|e]; simpl; [|done].
    by rewrite <- !app_assoc.
Qed.




Lemma history_files_foldl_rename (d : directory) (fs : list file) :
  history_files (foldl rename d fs)
  = filter (fun f => name f ∉ name <$> fs) (history_files d).
Proof.
  revert d. induction fs as [|f fs IH]; intros d; simpl.
  - induction (history_files d) as [|g l IHl]; [done|].
    rewrite filter_cons_True by apply not_elem_of_nil. by rewrite <- IHl.
  - rewrite IH. simpl. rewrite list_filter_filter. apply list_filter_iff.
    intros g. rewrite not_elem_of_cons. tauto.
Qed.

End ProcessFacts.

Section Batch.
Import Py Sre TrajectoryParser Notions Samples.
Import PyFacts ParseRoundFacts.
Import ConvertFacts ProcessFacts.

(** C1: two messages per round. When every round has a non-empty prompt
    (one that tests true, as a non-empty text does),
    [convert_to_docent_format] returns one run with twice as many
    messages as rounds; the messages of round [i] stand at [2i] and
    [2i + 1]: a user message with the round's prompt, then an assistant
    message with its public answer, or with its [full_answer] when the
    public answer is empty. *)
Theorem convert_two_messages_per_round (parsed_data : parsed_data) :
  Forall (fun r => truthy (prompt r) = true) (rounds parsed_data) ->
  exists run, convert_to_docent_format parsed_data = [run]
    /\ length (messages run) = 2 * length (rounds parsed_data)
    /\ forall i r, rounds parsed_data !! i = Some r ->
         messages run !! (2 * i)
           = Some {| role := str "user"; content := prompt r |}
         /\ messages run !! (2 * i + 1)
           = Some {| role := str "assistant";
                     content := if truthy (public_answer r) then public_answer r
                                else full_answer r |}.
Proof.
  intros Hp. eexists. split; [done|]. cbn [messages].
  rewrite foldl_convert_round, app_nil_l.
  assert (rounds parsed_data ≫= round_messages
          = rounds parsed_data ≫= fun r =>
              [{| role := str "user"; content := prompt r |};
               {| role := str "assistant";
                  content := if truthy (public_answer r) then public_answer r
                             else full_answer r |}]) as ->.
  { induction Hp as [|r rs Hr _ IH]; [done|]. rewrite !bind_cons, IH.
    unfold round_messages. by rewrite Hr. }
  split; [apply length_bind_pair|]. intros i r Hi.
  destruct (lookup_bind_pair
    (fun r => {| role := str "user"; content := prompt r |})
    (fun r => {| role := str "assistant";
                 content := if truthy (public_answer r) then public_answer r
                            else full_answer r |})
    (rounds parsed_data) i) as [-> ->].
  by rewrite Hi.
Qed.

Lemma convert_two_messages_per_round_witness :
  exists run, convert_to_docent_format two_rounds = [run]
    /\ (content <$> messages run)
       = [JStr (str "Your turn."); JStr (str "I take A1");
          JStr (str "Reply."); JStr (str "No deal.")]
    /\ length (messages run) = 2 * 2.
Proof.
  destruct (convert_two_messages_per_round two_rounds) as (run & Hrun & Hlen & _).
  - repeat constructor.
  - exists run. split; [exact Hrun|]. split; [|exact Hlen].
    injection Hrun as <-. reflexivity.
Defined.



End Batch.

Module ConfigFacts.
Import Py TrajectoryParser Notions.

Lemma _load_config_line_entry (config : gmap pystr agent_entry) (line : pystr) :
  _load_config_line config line =
  match line_entry line with
  | Some (agent_name, entry) => <[agent_name := entry]> config
  | None => config
  end.
Proof.
  unfold _load_config_line, line_entry. fold (parts line).
  destruct (parts line) as [|? [|? [|? [|? [|? ?]]]]]; done.
Qed.

(** A line with fewer than five fields changes nothing. *)
Lemma _load_config_line_skip (config : gmap pystr agent_entry) (line : pystr) :
  length (parts line) < 5 -> _load_config_line config line = config.
Proof.
  intros H. unfold _load_config_line. fold (parts line).
  by replace (5 <=? length (parts line)) with false
    by (symmetry; apply Nat.leb_gt; lia).
Qed.

Lemma foldl_load_config_keep (config : gmap pystr agent_entry)
    (lines : list pystr) (agent_name : pystr) :
  not_renamed agent_name lines ->
  foldl _load_config_line config lines !! agent_name = config !! agent_name.
Proof.
  intros H. revert config. induction H as [|line lines Hl _ IH]; intros config; [done|].
  simpl. rewrite IH, _load_config_line_entry.
  destruct (line_entry line) as [[n e]|]; [|done].
  apply lookup_insert_ne. intros ->. by eapply Hl.
Qed.

Lemma foldl_load_config_app (config : gmap pystr agent_entry)
    (before : list pystr) (line : pystr) (after : list pystr)
    (agent_name : pystr) (entry : agent_entry) :
  line_entry line = Some (agent_name, entry) ->
  not_renamed agent_name after ->
  foldl _load_config_line config (before ++ line :: after) !! agent_name = Some entry.
Proof.
  intros Hl Ha. rewrite foldl_app. simpl.
  rewrite foldl_load_config_keep by done.
  rewrite _load_config_line_entry, Hl. apply lookup_insert_eq.
Qed.

End ConfigFacts.

Section Config.
Import Py TrajectoryParser Notions Samples.
Import ConfigFacts.

(** C6, as the code has it: loading the agent configuration. A line
    whose text, stripped, has five comma-separated fields or more maps
    its first field to the next four, unless a later such line has the
    same first field (the later line then replaces the entry); a line
    with fewer fields changes nothing; and without a [config.txt] the
    mapping is empty. *)
Theorem load_config_entries (data_dir : directory) :
  (forall before line after agent_name p1 p2 p3 p4 rest,
     config_txt data_dir = Some (before ++ line :: after) ->
     split 44 (strip line) = agent_name :: p1 :: p2 :: p3 :: p4 :: rest ->
     not_renamed agent_name after ->
     _load_config data_dir !! agent_name
     = Some {| short_name := p1; player_type := p2; strategy := p3; model := p4 |})
  /\ (forall config line,
        length (split 44 (strip line)) < 5 -> _load_config_line config line = config)
  /\ (config_txt data_dir = None -> _load_config data_dir = ∅).
Proof.
  split_and!.
  - intros before line after agent_name p1 p2 p3 p4 rest Hf Hp Ha.
    unfold _load_config. rewrite Hf.
    apply foldl_load_config_app; [|done]. unfold line_entry, parts. by rewrite Hp.
  - apply _load_config_line_skip.
  - intros H. unfold _load_config. by rewrite H.
Qed.

Lemma load_config_entries_witness :
  let config :=
    _load_config
      {| config_txt := Some [line "Alice,A1,buyer,aggressive,gpt-4"; line "Bob,B1,seller"];
         history_files := []; processed := [] |} in
  config !! str "Alice"
  = Some {| short_name := str "A1"; player_type := str "buyer";
            strategy := str "aggressive"; model := str "gpt-4" |}
  /\ config !! str "Bob" = None.
Proof.
  split; [|reflexivity].
  apply (proj1 (load_config_entries _) []
           (line "Alice,A1,buyer,aggressive,gpt-4") [line "Bob,B1,seller"]
           (str "Alice") (str "A1") (str "buyer") (str "aggressive") (str "gpt-4") []).
  - reflexivity.
  - reflexivity.
  - repeat constructor. intros entry. discriminate.
Defined.

(** C6 as the specification states it fails: of two lines with the same
    name, the first one's fields are not in the mapping. *)
Lemma load_config_entries_counterexample :
  ~ (forall (data_dir : directory) (lines : list pystr) (line : pystr)
            (agent_name p1 p2 p3 p4 : pystr) (rest : list pystr),
       config_txt data_dir = Some lines -> line ∈ lines ->
       split 44 (strip line) = agent_name :: p1 :: p2 :: p3 :: p4 :: rest ->
       _load_config data_dir !! agent_name
       = Some {| short_name := p1; player_type := p2; strategy := p3; model := p4 |}).
Proof.
  intros H.
  specialize (H
    {| config_txt := Some [line "Alice,A1,buyer,aggressive,gpt-4";
                           line "Alice,A2,seller,fair,gpt-3"];
       history_files := []; processed := [] |}
    _ (line "Alice,A1,buyer,aggressive,gpt-4")
    (str "Alice") (str "A1") (str "buyer") (str "aggressive") (str "gpt-4") []
    eq_refl (list_elem_of_here _ _) eq_refl).
  vm_compute in H. discriminate H.
Qed.

End Config.

Module IngestorFacts.
Import Py.
Import TrajectoryParser (message, role, content).
Import ProperDocentIngestor IngestorNotions.




End IngestorFacts.

Section Upload.
Import Py.
Import TrajectoryParser (message, role, content).
Import ProperDocentIngestor IngestorNotions.
Import IngestorFacts.

Section Ingestor.
Context {pyfloat : Type} (float : Z -> pyfloat).




End Ingestor.


End Upload.

(** * Further properties of the code *)

Module StripFacts.
Import Py Notions RunNotions PyFacts.

Lemma lstrip_cons_nospace (c : N) (s : pystr) :
  isspace c = false -> lstrip (c :: s) = c :: s.
Proof. intros H. simpl. by rewrite H. Qed.

Lemma lstrip_id_iff (s : pystr) :
  lstrip s = s <-> match s with [] => True | c :: _ => isspace c = false end.
Proof.
  destruct s as [|c s]; [done|]. simpl. destruct (isspace c) eqn:E; [|done].
  split; [|done]. intros H%(f_equal length).
  pose proof (lstrip_length s). simpl in H. lia.
Qed.

Lemma lstrip_blank_app (ws s : pystr) : blank ws -> lstrip (ws ++ s) = lstrip s.
Proof.
  induction 1 as [|c ws Hc _ IH]; [done|]. simpl. by rewrite Hc.
Qed.

Lemma lstrip_blank (ws : pystr) : blank ws -> lstrip ws = [].
Proof. intros H. rewrite <- (app_nil_r ws). by rewrite lstrip_blank_app. Qed.

Lemma lstrip_split (s : pystr) : exists ws, blank ws /\ s = ws ++ lstrip s.
Proof.
  induction s as [|c s (ws & Hws & IH)];
    [exists []; split; [apply Forall_nil_2 | done]|]. simpl.
  destruct (isspace c) eqn:E.
  - exists (c :: ws). split; [by constructor|]. simpl. by rewrite <- IH.
  - exists []. split; [apply Forall_nil_2 | done].
Qed.

Lemma lstrip_idemp (s : pystr) : lstrip (lstrip s) = lstrip s.
Proof.
  induction s as [|c s IH]; [done|]. simpl. destruct (isspace c) eqn:E; [done|].
  simpl. by rewrite E.
Qed.

Lemma rstrip_split (s : pystr) : exists ws, blank ws /\ s = rstrip s ++ ws.
Proof.
  destruct (lstrip_split (reverse s)) as (ws & Hws & E).
  exists (reverse ws). split; [by apply Forall_reverse|].
  unfold rstrip. rewrite <- reverse_app, <- E. by rewrite reverse_involutive.
Qed.

Lemma rstrip_length (s : pystr) : length (rstrip s) <= length s.
Proof.
  unfold rstrip. rewrite length_reverse. pose proof (lstrip_length (reverse s)).
  by rewrite length_reverse in *.
Qed.

Lemma rstrip_idemp (s : pystr) : rstrip (rstrip s) = rstrip s.
Proof. unfold rstrip. by rewrite reverse_involutive, lstrip_idemp. Qed.

Lemma rstrip_app_blank (s ws : pystr) : blank ws -> rstrip (s ++ ws) = rstrip s.
Proof.
  intros H. unfold rstrip. rewrite reverse_app, lstrip_blank_app; [done|].
  by apply Forall_reverse.
Qed.

(** What [rstrip] leaves of a text without leading whitespace has none
    either. *)
Lemma lstrip_rstrip (s : pystr) : lstrip s = s -> lstrip (rstrip s) = rstrip s.
Proof.
  intros H. destruct (rstrip_split s) as (ws & _ & E).
  apply lstrip_id_iff. apply lstrip_id_iff in H.
  destruct (rstrip s) as [|c r]; [done|]. rewrite E in H. done.
Qed.

Lemma lstrip_strip (s : pystr) : lstrip (strip s) = strip s.
Proof. apply lstrip_rstrip, lstrip_idemp. Qed.

Lemma rstrip_strip (s : pystr) : rstrip (strip s) = strip s.
Proof. apply rstrip_idemp. Qed.

(** A text is its own [strip] when it has no whitespace at either end. *)
Lemma strip_id (s : pystr) : strip s = s <-> lstrip s = s /\ rstrip s = s.
Proof.
  split.
  - intros H. assert (lstrip s = s) as E.
    { rewrite (lstrip_suffix s).
      pose proof (lstrip_length s). pose proof (rstrip_length (lstrip s)).
      apply (f_equal length) in H. unfold strip in H.
      replace (length s - length (lstrip s)) with 0 by lia. done. }
    split; [done|]. unfold strip in H. by rewrite E in H.
  - intros [E1 E2]. unfold strip. by rewrite E1.
Qed.

(** Whitespace around such a text is what [strip] removes. *)
Lemma strip_blank_app (ws1 body ws2 : pystr) :
  blank ws1 -> blank ws2 -> strip body = body ->
  strip (ws1 ++ body ++ ws2) = body.
Proof.
  intros H1 H2 [E1 E2]%strip_id. unfold strip. rewrite lstrip_blank_app by done.
  destruct body as [|c body].
  - rewrite app_nil_l, lstrip_blank by done. done.
  - apply lstrip_id_iff in E1. rewrite <- app_comm_cons.
    rewrite lstrip_cons_nospace by done.
    rewrite app_comm_cons, rstrip_app_blank by done. done.
Qed.

End StripFacts.

Module RoundFacts.
Import Py Sre PyFacts SreFacts TagFacts TrajectoryParser DealFacts DealFindall.
Import ParseRoundFacts Notions RunNotions StripFacts.

#[local] Arguments N.eqb : simpl never.
#[local] Arguments startswith : simpl never.
#[local] Arguments sre_match : simpl never.
#[local] Arguments repeat_one : simpl never.
#[local] Arguments DEAL : simpl never.
#[local] Arguments END_DEAL : simpl never.

(** [_parse_round] on a dict whose [full_answer] is text and whose
    [agent] cannot be hashed. *)
Lemma _parse_round_unhashable (self : TrajectoryParser) (m : gmap pystr json)
    idx (s : pystr) :
  field m "full_answer" = JStr s ->
  hashable (field m "agent") = false ->
  _parse_round self (JObj m) idx = Raise TypeError.
Proof.
  unfold field. intros Hs Ha. unfold _parse_round, get.
  cbn [mbind outcome_bind]. rewrite Hs. cbn [re_findall re_search mbind outcome_bind].
  rewrite scratchpad_pattern_tag, group1_strip_tag.
  cbn [mbind outcome_bind].
  rewrite answer_pattern_tag, group1_strip_tag_or.
  unfold config_get.
  destruct (default (JStr []) (m !! str "agent")); try done;
    destruct (tag_text ANSWER END_ANSWER s); done.
Qed.

Lemma _parse_round_not_text (self : TrajectoryParser) (m : gmap pystr json) idx :
  (forall s : pystr, field m "full_answer" <> JStr s) ->
  _parse_round self (JObj m) idx = Raise TypeError.
Proof.
  unfold field. intros Hs. unfold _parse_round, get.
  cbn [mbind outcome_bind].
  destruct (default (JStr []) (m !! str "full_answer")); try done.
  by destruct (Hs s).
Qed.

(** The text between the tags that [tag_text] returns. *)
Lemma tag_text_Some (open close s x : pystr) :
  tag_text open close s = Some x ->
  exists pre post, s = pre ++ open ++ x ++ close ++ post.
Proof.
  unfold tag_text. destruct (search _ s) as [m0|] eqn:E; [|done]. simpl.
  apply search_tag_Some in E as (pre & x' & post & -> & Hg & _).
  rewrite Hg. intros [= <-]. eauto.
Qed.

Lemma blank_no_lt (ws : pystr) : blank ws -> 60%N ∉ ws.
Proof.
  intros H Hin. unfold blank in H. rewrite Forall_forall in H.
  apply H in Hin. done.
Qed.

Lemma deal_text_blank_app (ws a : pystr) :
  blank ws -> deal_content a -> deal_text (ws ++ a) = a.
Proof.
  intros Hws (Hne & _ & Ha). unfold deal_text.
  rewrite lstrip_blank_app by done. rewrite Ha. by destruct a.
Qed.

Lemma deal_text_blank (ws : pystr) (c : N) :
  blank (ws ++ [c]) -> deal_text (ws ++ [c]) = [c].
Proof.
  intros H. unfold deal_text. rewrite lstrip_blank by done.
  rewrite length_app. simpl. replace (length ws + 1 - 1) with (length ws) by lia.
  by rewrite drop_app_length.
Qed.

(** A match of the deal pattern reads [<DEAL>], whitespace, an entry,
    whitespace and [</DEAL>]. *)
Lemma sre_match_deal_span ma st (s : pystr) ptr e ms :
  sre_match ma st deal_pattern s ptr [] = Some (e, ms) ->
  exists ws d ws' post,
    s = DEAL ++ ws ++ d ++ ws' ++ END_DEAL ++ post
    /\ blank ws /\ blank ws' /\ d <> [] /\ (60%N ∉ d)
    /\ ms = [(1, ptr + 6 + length ws + length d); (0, ptr + 6 + length ws)]
    /\ e = ptr + 6 + length ws + length d + length ws' + 7.
Proof.
  unfold deal_pattern. rewrite sre_match_literals.
  destruct (startswith (str "<DEAL>") s) eqn:E; [|done].
  apply startswith_drop in E. change (length (str "<DEAL>")) with 6 in *.
  cbn [app]. rewrite sre_match_REPEAT_ONE.
  set (s1 := drop 6 s) in *.
  intros (j1 & Hj1 & _ & Hall1 & H)%repeat_one_sound.
  rewrite sre_match_MARK, sre_match_REPEAT_ONE in H.
  apply repeat_one_sound in H as (j2 & Hj2 & Hmin & Hall2 & H).
  rewrite sre_match_MARK, sre_match_REPEAT_ONE in H.
  apply repeat_one_sound in H as (j3 & Hj3 & _ & Hall3 & H).
  rewrite sre_match_literals_nil in H.
  destruct (startswith (str "</DEAL>") _) eqn:E3; [|done].
  apply startswith_drop in E3. change (length (str "</DEAL>")) with 7 in *.
  destruct (ma && _); [done|]. injection H as <- <-.
  rewrite !length_drop in *.
  exists (take j1 s1), (take j2 (drop j1 s1)), (take j3 (drop j2 (drop j1 s1))),
    (drop 7 (drop j3 (drop j2 (drop j1 s1)))).
  rewrite !length_take, !length_drop.
  split_and!.
  - rewrite E at 1. f_equal. change (str "</DEAL>") with END_DEAL in E3.
    rewrite <- E3. by rewrite !take_drop.
  - done.
  - done.
  - intros H%(f_equal length). rewrite length_take, length_drop in H.
    simpl in H. lia.
  - intros Hin. rewrite Forall_forall in Hall2. apply Hall2 in Hin. done.
  - do 3 f_equal; lia.
  - lia.
Qed.

Lemma findall_loop_deal_segments fuel (string : pystr) start ma :
  start <= length string ->
  exists segs tail,
    drop start string = deal_segments segs tail
    /\ findall_loop fuel deal_pattern string start ma = entry <$> segs
    /\ Forall (fun seg => blank (leading seg) /\ blank (trailing seg)) segs.
Proof.
  revert start ma. induction fuel as [|fuel IH]; intros start ma Hstart.
  { exists [], (drop start string). split_and!; [done | done | constructor]. }
  rewrite findall_loop_S.
  replace (length string <? start) with false by (symmetry; apply Nat.ltb_ge; lia).
  destruct (sre_search ma deal_pattern (drop start string) start)
    as [[[b e] ms]|] eqn:Hs.
  2:{ exists [], (drop start string). split_and!; [done | done | constructor]. }
  pose proof Hs as (_ & He & _)%sre_search_bounds.
  apply sre_search_sound in Hs as (j & ma' & Hj & -> & _ & Hm).
  apply sre_match_deal_span in Hm
    as (ws & d & ws' & post & Hd & Hws & Hws' & Hne & _ & -> & ->).
  rewrite length_drop in *.
  assert (drop (start + j + 6 + length ws + length d + length ws' + 7) string = post)
    as Hpost.
  { replace (start + j + 6 + length ws + length d + length ws' + 7)
      with (start + (j + (length DEAL + (length ws + (length d
              + (length ws' + length END_DEAL))))))
      by (change (length DEAL) with 6; change (length END_DEAL) with 7; lia).
    rewrite <- !drop_drop. rewrite Hd.
    by rewrite !drop_app_length. }
  destruct (IH (start + j + 6 + length ws + length d + length ws' + 7)
              (start + j + 6 + length ws + length d + length ws' + 7 =? start + j))
    as (segs & tail & Hseg & Hall & Hblank); [lia|].
  exists ({| skipped := take j (drop start string); leading := ws; entry := d;
             trailing := ws' |} :: segs), tail.
  split_and!.
  - cbn [deal_segments skipped leading entry trailing].
    rewrite <- Hseg, Hpost, <- Hd. by rewrite take_drop.
  - rewrite group1_marks. cbn [default from_option]. unfold id.
    rewrite fmap_cons. cbn [entry]. f_equal; [|exact Hall].
    rewrite <- (take_drop start string) at 1.
    rewrite <- (take_drop j (drop start string)) at 1. rewrite Hd.
    replace (take start string ++ take j (drop start string)
               ++ DEAL ++ ws ++ d ++ ws' ++ END_DEAL ++ post)
      with ((take start string ++ take j (drop start string) ++ DEAL ++ ws)
              ++ d ++ ws' ++ END_DEAL ++ post)
      by (by rewrite <- !app_assoc).
    replace (start + j + 6 + length ws)
      with (length (take start string ++ take j (drop start string) ++ DEAL ++ ws)).
    + apply slice_app.
    + rewrite !length_app, !length_take, length_drop.
      change (length DEAL) with 6. lia.
  - constructor; [done | exact Hblank].
Qed.

(** [findall] for the deal pattern cuts the subject into its matches. *)
Lemma findall_deal_segments (s : pystr) :
  exists segs tail,
    s = deal_segments segs tail
    /\ findall deal_pattern s = entry <$> segs
    /\ Forall (fun seg => blank (leading seg) /\ blank (trailing seg)) segs.
Proof.
  destruct (findall_loop_deal_segments (iterations s 0 false) s 0 false)
    as (segs & tail & H1 & H2 & H3); [lia|].
  rewrite drop_0 in H1. by exists segs, tail.
Qed.

Lemma findall_deal_unclosed (s : pystr) :
  find END_DEAL s = None -> findall deal_pattern s = [].
Proof.
  intros H. destruct (findall_deal_segments s) as (segs & tail & Hs & -> & _).
  destruct segs as [|seg segs]; [done|]. exfalso.
  rewrite find_None_occurs in H.
  apply (H (skipped seg ++ DEAL ++ leading seg ++ entry seg ++ trailing seg)
           (deal_segments segs tail)).
  rewrite Hs. cbn [deal_segments]. by rewrite <- !app_assoc.
Qed.

(** The search returns the leftmost match. *)
Lemma sre_search_leftmost code (s : pystr) ptr j r :
  j <= length s ->
  sre_match false (ptr + j) code (drop j s) (ptr + j) [] = Some r ->
  exists b e ms, sre_search false code s ptr = Some (b, e, ms)
    /\ b <= ptr + j /\ (b = ptr + j -> (e, ms) = r).
Proof.
  revert s ptr. induction j as [|j IH]; intros s ptr Hj Hm.
  - rewrite drop_0, Nat.add_0_r in Hm. rewrite sre_search_unfold, Hm.
    destruct r as [e ms]. exists ptr, e, ms. split_and!; [done | lia | done].
  - destruct s as [|c s]; [simpl in Hj; lia|]. rewrite sre_search_unfold.
    destruct (sre_match false ptr code (c :: s) ptr []) as [[e ms]|].
    + exists ptr, e, ms. split_and!; [done | lia | lia].
    + replace (ptr + S j) with (S ptr + j) in * by lia. simpl in Hm, Hj.
      destruct (IH s (S ptr)) as (b & e & ms & ? & ? & ?); [lia | done |].
      by exists b, e, ms.
Qed.

(** Inside a match of the deal pattern, after its first character, no
    [<DEAL>] begins. *)
Lemma no_DEAL_inside (mid post : pystr) k :
  60%N ∉ mid -> 1 <= k < 6 + length mid + 7 ->
  startswith DEAL (drop k (DEAL ++ mid ++ END_DEAL ++ post)) = false.
Proof.
  intros Hmid [Hk1 Hk2]. destruct k as [|k]; [lia|].
  change (DEAL ++ mid ++ END_DEAL ++ post)
    with (60%N :: str "DEAL>" ++ mid ++ 60%N :: str "/DEAL>" ++ post).
  rewrite skipn_cons, (app_assoc (str "DEAL>")).
  assert (60%N ∉ str "DEAL>" ++ mid) as HX.
  { rewrite not_elem_of_app. split; [|done]. apply (bool_decide_unpack _). by vm_compute. }
  assert (length (str "DEAL>" ++ mid) = 5 + length mid) as HL
    by (by rewrite length_app).
  revert HX HL. generalize (str "DEAL>" ++ mid). intros X HX HL.
  destruct (decide (k < length X)) as [Hlt|Hge].
  - rewrite drop_app_le by lia.
    destruct (drop k X) as [|c X'] eqn:E.
    { apply (f_equal length) in E. rewrite length_drop in E. simpl in E. lia. }
    assert (c ∈ X) as Hc.
    { apply (subseteq_drop k X). rewrite E. left. }
    unfold DEAL. rewrite <- app_comm_cons.
    change (str "<DEAL>") with (60%N :: str "DEAL>"). rewrite startswith_cons.
    assert ((60 =? c)%N = false) as -> by (apply N.eqb_neq; by intros <-). done.
  - rewrite drop_app_ge by lia.
    remember (k - length X) as i eqn:Hi.
    assert (i < 7) as Hi7 by lia. clear - Hi7.
    do 7 (destruct i as [|i]; [by vm_compute|]). lia.
Qed.

(** A tag pair with some content free of [<] gives its entry, wherever
    it stands. *)
Lemma findall_loop_deal_complete fuel (u a v : pystr) start :
  a <> [] -> 60%N ∉ a -> start <= length u ->
  iterations (u ++ DEAL ++ a ++ END_DEAL ++ v) start false <= fuel ->
  deal_text a
  ∈ findall_loop fuel deal_pattern (u ++ DEAL ++ a ++ END_DEAL ++ v) start false.
Proof.
  intros Hne Ha. remember (u ++ DEAL ++ a ++ END_DEAL ++ v) as string eqn:Hstring.
  assert (length string = length u + 6 + length a + 7 + length v) as Hlen.
  { rewrite Hstring, !length_app. change (length DEAL) with 6.
    change (length END_DEAL) with 7. lia. }
  assert (drop (length u) string = DEAL ++ a ++ END_DEAL ++ v) as Hu
    by (by rewrite Hstring, drop_app_length).
  revert start. induction fuel as [|fuel IH]; intros start Hstart Hfuel.
  { unfold iterations in Hfuel. lia. }
  rewrite findall_loop_S.
  replace (length string <? start) with false by (symmetry; apply Nat.ltb_ge; lia).
  destruct (sre_search_leftmost deal_pattern (drop start string) start
              (length u - start)
              (length u + 6 + length a + 7,
               [(1, length u + 6 + length a);
                (0, length u + 6 + length a - length (deal_text a))]))
    as (b & e & ms & Hs & Hb & Hbu).
  { rewrite length_drop. lia. }
  { rewrite drop_drop. replace (start + (length u - start)) with (length u) by lia.
    rewrite Hu, sre_match_deal; [|done|done].
    by rewrite bool_decide_eq_true_2, startswith_app by done. }
  replace (start + (length u - start)) with (length u) in * by lia.
  rewrite Hs. destruct (decide (b = length u)) as [->|Hbne].
  - injection (Hbu eq_refl) as -> ->. rewrite group1_marks.
    cbn [default from_option]. unfold id.
    replace (slice (length u + 6 + length a - length (deal_text a))
               (length u + 6 + length a) string) with (deal_text a); [left|].
    rewrite Hstring.
    replace (u ++ DEAL ++ a ++ END_DEAL ++ v) with ((u ++ DEAL) ++ a ++ END_DEAL ++ v)
      by (by rewrite <- !app_assoc).
    replace (length u + 6) with (length (u ++ DEAL))
      by (rewrite length_app; by change (length DEAL) with 6).
    rewrite slice_suffix by apply deal_text_length.
    apply deal_text_suffix.
  - right. clear Hbu.
    apply sre_search_sound in Hs as (j & ma' & Hj & -> & _ & Hm).
    rewrite drop_drop in Hm.
    apply sre_match_deal_span in Hm
      as (ws & d & ws' & post & Hd & Hws & Hws' & _ & Hd60 & -> & ->).
    assert (60%N ∉ ws ++ d ++ ws') as Hmid.
    { rewrite !not_elem_of_app. split_and!; [by apply blank_no_lt | done |].
      by apply blank_no_lt. }
    assert (start + j + 6 + length ws + length d + length ws' + 7 <= length u) as He.
    { destruct (decide (start + j + 6 + length ws + length d + length ws' + 7
                        <= length u)) as [|Hgt]; [done|]. exfalso.
      pose proof (no_DEAL_inside (ws ++ d ++ ws') post (length u - (start + j)) Hmid)
        as Hno.
      rewrite <- !app_assoc, <- Hd, drop_drop in Hno.
      replace (start + j + (length u - (start + j))) with (length u) in Hno by lia.
      rewrite Hu, startswith_app in Hno. rewrite !length_app in Hno.
      discriminate Hno. lia. }
    replace (start + j + 6 + length ws + length d + length ws' + 7 =? start + j)
      with false by (symmetry; apply Nat.eqb_neq; lia).
    apply IH; [done|]. unfold iterations in *. lia.
Qed.

Lemma findall_deal_complete (u a v : pystr) :
  a <> [] -> 60%N ∉ a ->
  deal_text a ∈ findall deal_pattern (u ++ DEAL ++ a ++ END_DEAL ++ v).
Proof.
  intros Hne Ha. unfold findall. apply findall_loop_deal_complete; [done | done | lia | done].
Qed.

End RoundFacts.

Section ParseRoundMore.
Import Py Sre TrajectoryParser Notions RunNotions Samples.
Import PyFacts SreFacts TagFacts DealFacts DealFindall ParseRoundFacts.
Import StripFacts RoundFacts.

#[local] Arguments N.eqb : simpl never.
#[local] Arguments startswith : simpl never.
#[local] Arguments sre_match : simpl never.
#[local] Arguments repeat_one : simpl never.
#[local] Arguments DEAL : simpl never.
#[local] Arguments END_DEAL : simpl never.

(** X1: when [_parse_round] raises. On a round that is no dict it raises
    [AttributeError]; on a dict whose [full_answer] is present and is not
    text ([null] included) it raises [TypeError]; on a dict whose [agent]
    is a list or a dict it raises [TypeError]; on any other dict it
    returns, an absent [full_answer] standing for the empty text. It
    raises nothing else: [group(1)] of a match is never [None]. *)
Theorem parse_round_outcome (self : TrajectoryParser) (round_data : json)
    (idx : nat) :
  _parse_round self round_data idx =
  match round_data with
  | JObj m =>
      match default (JStr []) (m !! str "full_answer") with
      | JStr s =>
          if hashable (default (JStr []) (m !! str "agent"))
          then Return (parsed self m idx s)
          else Raise TypeError
      | _ => Raise TypeError
      end
  | _ => Raise AttributeError
  end.
Proof.
  destruct round_data as [| | | | | |m]; try done.
  destruct (default (JStr []) (m !! str "full_answer")) as [| | | |s| |] eqn:Hs;
    try (apply _parse_round_not_text; intros s; unfold field; by rewrite Hs).
  destruct (hashable (default (JStr []) (m !! str "agent"))) eqn:Ha.
  - by apply (_parse_round_returns self m idx s).
  - by apply (_parse_round_unhashable self m idx s).
Qed.

(** X2: what every parsed round satisfies. Its [round_index] is the
    index given; its [full_answer] is text and [message_length] is the
    number of characters of that text; [agent] and [prompt] are the
    round's own, the empty text when absent; [agent_config] is the
    entry of the configuration for the agent, and none for an agent
    without entry; a [scratchpad_reasoning] has no whitespace at either
    end, and [has_scratchpad] tells whether there is one; and
    [public_answer] is the round's own field, or a text without
    whitespace at either end. *)
Theorem parsed_round_invariants (self : TrajectoryParser) (round_data : json)
    (idx : nat) (r : parsed_round) :
  _parse_round self round_data idx = Return r ->
  round_index r = idx
  /\ (exists s : pystr, full_answer r = JStr s /\ message_length r = length s)
  /\ get round_data (str "agent") (JStr []) = Return (agent r)
  /\ get round_data (str "prompt") (JStr []) = Return (prompt r)
  /\ agent_config r = match agent r with
                      | JStr a => config self !! a
                      | _ => None
                      end
  /\ (forall x, scratchpad_reasoning r = Some x -> lstrip x = x /\ rstrip x = x)
  /\ (has_scratchpad r = true <-> is_Some (scratchpad_reasoning r))
  /\ (get round_data (str "public_answer") (JStr []) = Return (public_answer r)
      \/ exists x : pystr, public_answer r = JStr x /\ lstrip x = x /\ rstrip x = x).
Proof.
  intros H. apply _parse_round_inv in H as (m & s & -> & Hs & Ha & ->).
  unfold parsed; cbn -[str]. split_and!; try done.
  - by exists s.
  - intros x Hx. destruct (tag_text SCRATCHPAD END_SCRATCHPAD s) as [y|]; [|done].
    injection Hx as <-. split; [apply lstrip_strip | apply rstrip_strip].
  - rewrite bool_decide_eq_true.
    destruct (tag_text SCRATCHPAD END_SCRATCHPAD s); simpl.
    + split; [eauto | done].
    + split; [done | by intros [? ?]].
  - destruct (tag_text ANSWER END_ANSWER s) as [y|]; [right | by left].
    exists (strip y). split; [done|]. split; [apply lstrip_strip | apply rstrip_strip].
Qed.

Lemma parsed_round_invariants_witness :
  exists r,
    _parse_round no_parser (JObj scratchpad_round) 3 = Return r
    /\ round_index r = 3 /\ message_length r = 63
    /\ scratchpad_reasoning r = Some (str "keep" ++ [10%N] ++ str " quiet")
    /\ has_scratchpad r = true.
Proof.
  eexists. split; [reflexivity|].
  pose proof (parsed_round_invariants no_parser (JObj scratchpad_round) 3 _ eq_refl)
    as (H1 & _).
  split; [exact H1|]. split; [reflexivity|]. split; reflexivity.
Defined.

(** X3: whitespace in a deal. Of the content of a [<DEAL>] span, the
    whitespace at its start is left out of the entry and the whitespace
    at its end is kept: for the only span of a text, with content [ws]
    then [a], [ws] whitespace and [a] some text without [<] that does not
    begin with whitespace (it may end with some), the entry is [a]. A
    content of nothing but whitespace gives its last character as the
    entry. *)
Theorem deal_whitespace (self : TrajectoryParser)
    (m : gmap pystr json) (idx : nat) (s : pystr) :
  field m "full_answer" = JStr s ->
  hashable (field m "agent") = true ->
  exists r, _parse_round self (JObj m) idx = Return r
    /\ (forall t0 ws a t1,
          s = t0 ++ DEAL ++ (ws ++ a) ++ END_DEAL ++ t1 ->
          find DEAL t0 = None -> find DEAL t1 = None ->
          blank ws -> deal_content a ->
          deals_proposed r = [a])
    /\ (forall t0 ws c t1,
          s = t0 ++ DEAL ++ (ws ++ [c]) ++ END_DEAL ++ t1 ->
          find DEAL t0 = None -> find DEAL t1 = None ->
          blank ws -> isspace c = true ->
          deals_proposed r = [[c]]).
Proof.
  intros Hs Ha. exists (parsed self m idx s).
  split; [by apply _parse_round_returns|].
  unfold parsed; cbn [deals_proposed]. split.
  - intros t0 ws a t1 -> Ht0 Ht1 Hws Hca.
    pose proof (findall_deal_spans t0 [(ws ++ a, t1)] Ht0) as H.
    cbn [deal_spans fmap list_fmap fst] in H. rewrite app_nil_r in H.
    rewrite H.
    + by rewrite deal_text_blank_app.
    + apply Forall_cons_2; [|apply Forall_nil_2].
      destruct Hca as (Hne & Hlt & _). split_and!; cbn [fst snd]; [|  |done].
      * by destruct ws, a.
      * rewrite not_elem_of_app. split; [by apply blank_no_lt | done].
  - intros t0 ws c t1 -> Ht0 Ht1 Hws Hc.
    assert (blank (ws ++ [c])) as Hb.
    { apply Forall_app. split; [done|]. by apply Forall_cons_2; [|apply Forall_nil_2]. }
    pose proof (findall_deal_spans t0 [(ws ++ [c], t1)] Ht0) as H.
    cbn [deal_spans fmap list_fmap fst] in H. rewrite app_nil_r in H.
    rewrite H.
    + by rewrite deal_text_blank.
    + apply Forall_cons_2; [|apply Forall_nil_2].
      split_and!; cbn [fst snd]; [by destruct ws | by apply blank_no_lt | done].
Qed.

Lemma deal_whitespace_witness :
  exists r,
    _parse_round no_parser
      (JObj (round_dict [("full_answer", "I offer <DEAL>  A1, B2  </DEAL>.")])) 0
      = Return r
    /\ deals_proposed r = [str "A1, B2  "].
Proof.
  destruct (deal_whitespace no_parser
    (round_dict [("full_answer", "I offer <DEAL>  A1, B2  </DEAL>.")])
    0 _ eq_refl eq_refl) as (r & Hr & Hlead & _).
  exists r. split; [exact Hr|].
  apply (Hlead (str "I offer ") (str "  ") (str "A1, B2  ") (str "."));
    try reflexivity.
  - repeat constructor.
  - split; [discriminate | split; [apply (bool_decide_unpack _) |]; reflexivity].
Defined.

(** X4: where the deals come from. The [full_answer] of a parsed round
    is cut, from left to right, into segments [t <DEAL> ws d ws' </DEAL>],
    [ws] and [ws'] whitespace, followed by a last text, and
    [deals_proposed] holds the [d] of these segments, in order: every
    entry stands between a [<DEAL>] and a [</DEAL>] of the text, and the
    spans of two entries do not overlap. A text without [</DEAL>] has
    no deal. *)
Theorem deals_are_spans (self : TrajectoryParser) (round_data : json)
    (idx : nat) (r : parsed_round) :
  _parse_round self round_data idx = Return r ->
  exists (s : pystr) (segs : list segment) (tail : pystr),
    full_answer r = JStr s
    /\ s = deal_segments segs tail
    /\ deals_proposed r = entry <$> segs
    /\ Forall (fun seg => blank (leading seg) /\ blank (trailing seg)) segs
    /\ (find END_DEAL s = None -> deals_proposed r = [] /\ has_deal r = false).
Proof.
  intros H. apply _parse_round_inv in H as (m & s & -> & Hs & Ha & ->).
  destruct (findall_deal_segments s) as (segs & tail & H1 & H2 & H3).
  exists s, segs, tail. unfold parsed; cbn [full_answer deals_proposed has_deal].
  split_and!; [done..|].
  intros Hn. by rewrite findall_deal_unclosed.
Qed.

Lemma deals_are_spans_witness :
  exists r (segs : list segment) (tail : pystr),
    _parse_round no_parser
      (JObj (round_dict [("full_answer", "a <DEAL> A1 </DEAL> b <DEAL>B2</DEAL> c")])) 0
      = Return r
    /\ full_answer r = JStr (deal_segments segs tail)
    /\ deals_proposed r = entry <$> segs
    /\ deals_proposed r = [str "A1 "; str "B2"].
Proof.
  destruct (deals_are_spans no_parser
    (JObj (round_dict [("full_answer", "a <DEAL> A1 </DEAL> b <DEAL>B2</DEAL> c")]))
    0 _ eq_refl) as (s & segs & tail & H1 & H2 & H3 & _).
  eexists _, segs, tail. split; [reflexivity|].
  split; [by rewrite <- H2|]. split; [exact H3 | reflexivity].
Defined.

(** X5: no deal is missed. A [<DEAL>] span whose content is
    whitespace followed by some text [d] without [<] that does not begin
    with whitespace gives the entry [d], wherever the span stands in
    [full_answer] and whatever surrounds it: other spans, tags that
    match nothing, a scratchpad. The round then has [has_deal] true. *)
Theorem deals_complete (self : TrajectoryParser)
    (m : gmap pystr json) (idx : nat) (s : pystr) :
  field m "full_answer" = JStr s ->
  hashable (field m "agent") = true ->
  exists r, _parse_round self (JObj m) idx = Return r
    /\ forall u ws d v,
         s = u ++ DEAL ++ (ws ++ d) ++ END_DEAL ++ v ->
         blank ws -> deal_content d ->
         d ∈ deals_proposed r /\ has_deal r = true.
Proof.
  intros Hs Ha. exists (parsed self m idx s).
  split; [by apply _parse_round_returns|].
  unfold parsed; cbn [deals_proposed has_deal].
  intros u ws d v -> Hws Hd.
  assert (d ∈ findall deal_pattern (u ++ DEAL ++ (ws ++ d) ++ END_DEAL ++ v)) as Hin.
  { rewrite <- (deal_text_blank_app ws d) at 1 by done.
    destruct Hd as (Hne & Hlt & _). apply findall_deal_complete.
    - by destruct ws, d.
    - rewrite not_elem_of_app. split; [by apply blank_no_lt | done]. }
  split; [done|]. apply bool_decide_eq_true.
  destruct (findall deal_pattern _); [by apply elem_of_nil in Hin | simpl; lia].
Qed.

Lemma deals_complete_witness :
  exists r,
    _parse_round no_parser
      (JObj (round_dict [("full_answer", "<DEAL>x <DEAL> A1</DEAL>, or <DEAL>")])) 0
      = Return r
    /\ str "A1" ∈ deals_proposed r /\ has_deal r = true.
Proof.
  destruct (deals_complete no_parser
    (round_dict [("full_answer", "<DEAL>x <DEAL> A1</DEAL>, or <DEAL>")])
    0 _ eq_refl eq_refl) as (r & Hr & H).
  exists r. split; [exact Hr|].
  apply (H (str "<DEAL>x ") (str " ") (str "A1") (str ", or <DEAL>"));
    [reflexivity | repeat constructor |].
  split; [discriminate | split; [apply (bool_decide_unpack _) |]; reflexivity].
Defined.

(** X6: the content of the assistant message of a parsed round
    ([public_answer or full_answer], the last message
    [convert_to_docent_format] adds for the round). With a first
    [<ANSWER>] span of content [x] in [full_answer], it is [x.strip()]
    when that is not empty, and the whole [full_answer], tags and
    scratchpad included, when [x] is empty or whitespace. Without a
    span, it is the round's [public_answer] field when that tests true,
    else the whole [full_answer]. It tests false only for a round whose
    [full_answer] is empty and whose [public_answer] field is absent or
    tests false. *)
Theorem assistant_content (self : TrajectoryParser)
    (m : gmap pystr json) (idx : nat) (s : pystr) (messages : list message) :
  field m "full_answer" = JStr s ->
  hashable (field m "agent") = true ->
  exists r c,
    _parse_round self (JObj m) idx = Return r
    /\ last (convert_round messages r) = Some {| role := str "assistant"; content := c |}
    /\ (forall pre x post,
          s = pre ++ ANSWER ++ x ++ END_ANSWER ++ post ->
          find ANSWER pre = None -> find END_ANSWER x = None ->
          (strip x <> [] -> c = JStr (strip x)) /\ (strip x = [] -> c = JStr s))
    /\ ((forall pre x post, s <> pre ++ ANSWER ++ x ++ END_ANSWER ++ post) ->
        c = if truthy (field m "public_answer") then field m "public_answer"
            else JStr s)
    /\ (truthy c = false <-> s = [] /\ truthy (field m "public_answer") = false).
Proof.
  intros Hs Ha. exists (parsed self m idx s), (answer (parsed self m idx s)).
  split; [by apply _parse_round_returns|].
  split; [unfold convert_round; by rewrite last_snoc|].
  unfold answer, parsed; cbn [public_answer full_answer]. split_and!.
  - intros pre x post -> Hpre Hx.
    rewrite tag_text_first by
      (done || apply headfree_ANSWER || apply headfree_END_ANSWER).
    cbn [truthy]. split.
    + intros Hne. by rewrite bool_decide_eq_false_2.
    + intros He. by rewrite bool_decide_eq_true_2.
  - intros H. by rewrite tag_text_none.
  - destruct (tag_text ANSWER END_ANSWER s) as [x|] eqn:E.
    + apply tag_text_Some in E as (pre & post & ->).
      assert (pre ++ ANSWER ++ x ++ END_ANSWER ++ post <> []) as Hne
        by (intros [_ H]%app_eq_nil; discriminate H).
      cbn [truthy]. destruct (bool_decide (strip x = [])) eqn:Eb; cbn [negb truthy].
      * rewrite bool_decide_eq_false_2 by done. simpl. split; [done | by intros [? _]].
      * rewrite Eb. simpl. split; [done | by intros [? _]].
    + destruct (truthy (field m "public_answer")) eqn:Et.
      * rewrite Et. split; [done | by intros [_ ?]].
      * cbn [truthy]. rewrite negb_false_iff, bool_decide_eq_true. tauto.
Qed.

Lemma assistant_content_witness :
  exists r,
    _parse_round no_parser
      (JObj (round_dict [("full_answer", "<SCRATCHPAD>low</SCRATCHPAD><ANSWER> </ANSWER>");
                         ("public_answer", "I pass")])) 0 = Return r
    /\ last (convert_round [] r)
       = Some {| role := str "assistant";
                 content := JStr (str "<SCRATCHPAD>low</SCRATCHPAD><ANSWER> </ANSWER>") |}.
Proof.
  destruct (assistant_content no_parser
    (round_dict [("full_answer", "<SCRATCHPAD>low</SCRATCHPAD><ANSWER> </ANSWER>");
                 ("public_answer", "I pass")]) 0 _ [] eq_refl eq_refl)
    as (r & c & Hr & Hlast & Hspan & _).
  exists r. split; [exact Hr|]. rewrite Hlast. do 2 f_equal.
  apply (Hspan (str "<SCRATCHPAD>low</SCRATCHPAD>") (str " ") []); reflexivity.
Defined.

(** X7: a deal inside the scratchpad counts. The three extractions read
    the same text independently: a [<DEAL>] span that stands inside the
    first [<SCRATCHPAD>] span is an entry of [deals_proposed], and also
    part of [scratchpad_reasoning]. *)
Theorem scratchpad_deal_counted (self : TrajectoryParser)
    (m : gmap pystr json) (idx : nat) (s : pystr) :
  field m "full_answer" = JStr s ->
  hashable (field m "agent") = true ->
  exists r, _parse_round self (JObj m) idx = Return r
    /\ forall pre u a v post,
         s = pre ++ SCRATCHPAD ++ (u ++ DEAL ++ a ++ END_DEAL ++ v)
               ++ END_SCRATCHPAD ++ post ->
         find SCRATCHPAD pre = None ->
         find END_SCRATCHPAD (u ++ DEAL ++ a ++ END_DEAL ++ v) = None ->
         find DEAL (pre ++ SCRATCHPAD ++ u) = None ->
         find DEAL (v ++ END_SCRATCHPAD ++ post) = None ->
         deal_content a ->
         scratchpad_reasoning r = Some (strip (u ++ DEAL ++ a ++ END_DEAL ++ v))
         /\ deals_proposed r = [a] /\ has_deal r = true.
Proof.
  intros Hs Ha. exists (parsed self m idx s).
  split; [by apply _parse_round_returns|].
  unfold parsed; cbn [scratchpad_reasoning deals_proposed has_deal].
  intros pre u a v post -> Hpre Hx Ht0 Ht1 Hca.
  rewrite tag_text_first by
    (done || apply headfree_SCRATCHPAD || apply headfree_END_SCRATCHPAD).
  split; [done|].
  pose proof (findall_deal_spans (pre ++ SCRATCHPAD ++ u)
    [(a, v ++ END_SCRATCHPAD ++ post)] Ht0) as H.
  cbn [deal_spans fmap list_fmap fst] in H. rewrite app_nil_r in H.
  assert (pre ++ SCRATCHPAD ++ (u ++ DEAL ++ a ++ END_DEAL ++ v)
            ++ END_SCRATCHPAD ++ post
          = (pre ++ SCRATCHPAD ++ u) ++ DEAL ++ a ++ END_DEAL ++ v
              ++ END_SCRATCHPAD ++ post) as ->
    by (by rewrite <- !app_assoc).
  rewrite H.
  - destruct Hca as (? & ? & ?). by rewrite deal_text_lstrip.
  - apply Forall_cons_2; [|apply Forall_nil_2].
    destruct Hca as (? & ? & ?). by split_and!.
Qed.

Lemma scratchpad_deal_counted_witness :
  exists r,
    _parse_round no_parser
      (JObj (round_dict
         [("full_answer", "<SCRATCHPAD>maybe <DEAL>A1</DEAL> later</SCRATCHPAD>Hello")]))
      0 = Return r
    /\ scratchpad_reasoning r = Some (str "maybe <DEAL>A1</DEAL> later")
    /\ deals_proposed r = [str "A1"] /\ has_deal r = true.
Proof.
  destruct (scratchpad_deal_counted no_parser
    (round_dict
       [("full_answer", "<SCRATCHPAD>maybe <DEAL>A1</DEAL> later</SCRATCHPAD>Hello")])
    0 _ eq_refl eq_refl) as (r & Hr & H).
  exists r. split; [exact Hr|].
  apply (H [] (str "maybe ") (str "A1") (str " later") (str "Hello"));
    try reflexivity.
  split; [discriminate | split; [apply (bool_decide_unpack _) |]; reflexivity].
Defined.

End ParseRoundMore.

Module FileFacts.
Import Py Sre TrajectoryParser Notions RunNotions.
Import ParseRoundFacts RoundFacts ConvertFacts ProcessFacts.

Lemma parse_rounds_cons (self : TrajectoryParser) rd (items : list json) k :
  parse_rounds self (rd :: items) k =
  parsed_round ← _parse_round self rd k;
  parsed ← parse_rounds self items (S k);
  Return (parsed_round :: parsed).
Proof. done. Qed.

(** The rounds [parse_rounds] returns are those of the items, each
    parsed at its index. *)
Lemma parse_rounds_inv (self : TrajectoryParser) (items : list json) k rs :
  parse_rounds self items k = Return rs ->
  length rs = length items
  /\ forall i r, rs !! i = Some r ->
       exists rd, items !! i = Some rd /\ _parse_round self rd (k + i) = Return r.
Proof.
  revert k rs. induction items as [|rd items IH]; intros k rs.
  - intros [= <-]. split; [done|]. by intros i r ?.
  - rewrite parse_rounds_cons.
    destruct (_parse_round self rd k) as [r0|e] eqn:E0; [|done]. cbn [mbind outcome_bind].
    destruct (parse_rounds self items (S k)) as [rs0|e] eqn:E1; [|done].
    intros [= <-]. destruct (IH _ _ E1) as [Hlen Hall]. split; [simpl; lia|].
    intros [|i] r Hi.
    + injection Hi as <-. exists rd. by rewrite Nat.add_0_r.
    + destruct (Hall i r Hi) as (rd' & ? & ?). exists rd'.
      by replace (k + S i) with (S k + i) by lia.
Qed.

(** It returns when every item parses at its index. *)
Lemma parse_rounds_returns (self : TrajectoryParser) (items : list json) k :
  (forall i rd, items !! i = Some rd -> exists r, _parse_round self rd (k + i) = Return r) ->
  exists rs, parse_rounds self items k = Return rs.
Proof.
  revert k. induction items as [|rd items IH]; intros k H; [by eexists|].
  rewrite parse_rounds_cons.
  destruct (H 0 rd eq_refl) as [r Hr]. rewrite Nat.add_0_r in Hr. rewrite Hr.
  cbn [mbind outcome_bind].
  destruct (IH (S k)) as [rs ->]; [|by eexists].
  intros i rd' Hi. replace (S k + i) with (k + S i) by lia. by apply H.
Qed.

(** It raises what the first item that raises does. *)
Lemma parse_rounds_raises (self : TrajectoryParser) (items : list json) k i rd e :
  items !! i = Some rd -> _parse_round self rd (k + i) = Raise e ->
  (forall j rd', j < i -> items !! j = Some rd' ->
     exists r, _parse_round self rd' (k + j) = Return r) ->
  parse_rounds self items k = Raise e.
Proof.
  revert k i. induction items as [|rd0 items IH]; intros k i Hi He Hbefore; [done|].
  rewrite parse_rounds_cons. destruct i as [|i].
  - injection Hi as ->. rewrite Nat.add_0_r in He. by rewrite He.
  - destruct (Hbefore 0 rd0) as [r Hr]; [lia | done |].
    rewrite Nat.add_0_r in Hr. rewrite Hr. cbn [mbind outcome_bind].
    rewrite (IH (S k) i); [done | done | by replace (S k + i) with (k + S i) by lia |].
    intros j rd' Hj Hrd'. replace (S k + j) with (k + S j) by lia.
    apply Hbefore; [lia | done].
Qed.

Lemma _parse_round_config (self self' : TrajectoryParser) rd k :
  config self = config self' -> _parse_round self rd k = _parse_round self' rd k.
Proof. intros H. unfold _parse_round. by rewrite H. Qed.

Lemma parse_rounds_config (self self' : TrajectoryParser) (items : list json) k :
  config self = config self' -> parse_rounds self items k = parse_rounds self' items k.
Proof.
  intros H. revert k. induction items as [|rd items IH]; intros k; [done|].
  by rewrite !parse_rounds_cons, IH, (_parse_round_config self self').
Qed.

Lemma process_file_config (self self' : TrajectoryParser) (f : file) :
  config self = config self' -> process_file self f = process_file self' f.
Proof.
  intros H. unfold process_file, parse_trajectory_file.
  destruct (load f) as [data|e]; [|done]. cbn [mbind outcome_bind].
  destruct (get data (str "slot_assignment") (JArr [])); [|done]. cbn [mbind outcome_bind].
  destruct (v ← get data (str "rounds") (JArr []); len v); [|done]. cbn [mbind outcome_bind].
  destruct (get data (str "finished_rounds") (JInt 0)); [|done]. cbn [mbind outcome_bind].
  destruct (v ← get data (str "rounds") (JArr []); iter v) as [items|]; [|done].
  cbn [mbind outcome_bind].
  by rewrite (parse_rounds_config self self'), H.
Qed.

(** [len] and the loop agree on the number of rounds. *)
Lemma len_iter (v : json) (n : nat) (items : list json) :
  len v = Return n -> iter v = Return items -> n = length items.
Proof.
  destruct v; try done; cbn [len iter]; intros [= <-] [= <-].
  - by rewrite length_fmap.
  - done.
  - by rewrite length_fmap, length_map_to_list.
Qed.

(** [parse_trajectory_file] on a file that loads as the dict [m]. *)
Lemma parse_trajectory_file_dict (self : TrajectoryParser) (f : file)
    (m : gmap pystr json) :
  load f = Return (JObj m) ->
  parse_trajectory_file self f =
  total_rounds ← len (default (JArr []) (m !! str "rounds"));
  items ← iter (default (JArr []) (m !! str "rounds"));
  rounds ← parse_rounds self items 0;
  Return {|
    pd_filename := name f;
    slot_assignment := default (JArr []) (m !! str "slot_assignment");
    rounds := rounds;
    pd_metadata := {|
      meta_config := config self;
      meta_total_rounds := total_rounds;
      finished_rounds := default (JInt 0) (m !! str "finished_rounds") |} |}.
Proof. intros H. unfold parse_trajectory_file. by rewrite H. Qed.

Lemma parse_trajectory_file_inv (self : TrajectoryParser) (f : file) pd :
  parse_trajectory_file self f = Return pd ->
  exists (m : gmap pystr json) (items : list json),
    load f = Return (JObj m)
    /\ iter (default (JArr []) (m !! str "rounds")) = Return items
    /\ parse_rounds self items 0 = Return (rounds pd)
    /\ pd = {|
         pd_filename := name f;
         slot_assignment := default (JArr []) (m !! str "slot_assignment");
         rounds := rounds pd;
         pd_metadata := {|
           meta_config := config self;
           meta_total_rounds := length items;
           finished_rounds := default (JInt 0) (m !! str "finished_rounds") |} |}.
Proof.
  intros H. destruct (load f) as [data|e] eqn:El;
    [|unfold parse_trajectory_file in H; by rewrite El in H].
  destruct data as [| | | | | |m];
    try (unfold parse_trajectory_file in H; by rewrite El in H).
  rewrite (parse_trajectory_file_dict self f m El) in H.
  destruct (len _) as [n|] eqn:En; [|done]. cbn [mbind outcome_bind] in H.
  destruct (iter _) as [items|] eqn:Ei; [|done]. cbn [mbind outcome_bind] in H.
  destruct (parse_rounds self items 0) as [rs|] eqn:Er; [|done].
  injection H as <-. exists m, items. cbn [rounds].
  by rewrite (len_iter _ _ _ En Ei).
Qed.

(** The messages of a run: those of its rounds, in order. *)
Lemma convert_messages (pd : parsed_data) :
  convert_to_docent_format pd =
  [{| messages := rounds pd ≫= round_messages;
      metadata := {|
        filename := pd_filename pd;
        experiment_type := str "multi_agent_negotiation";
        total_rounds := meta_total_rounds (pd_metadata pd) |} |}].
Proof.
  unfold convert_to_docent_format. by rewrite foldl_convert_round, app_nil_l.
Qed.

Lemma round_messages_eq (r : parsed_round) :
  round_messages r =
  (if truthy (prompt r) then [user_message r] else []) ++ [assistant_message r].
Proof. done. Qed.

Lemma filter_assistant_rounds (rs : list parsed_round) :
  filter (fun msg => is_assistant msg) (rs ≫= round_messages)
  = assistant_message <$> rs.
Proof.
  induction rs as [|r rs IH]; [done|].
  rewrite bind_cons, filter_app, IH, round_messages_eq, fmap_cons.
  destruct (truthy (prompt r)); by vm_compute.
Qed.

Lemma filter_user_rounds (rs : list parsed_round) :
  filter (fun msg => is_user msg) (rs ≫= round_messages)
  = user_message <$> filter (fun r => truthy (prompt r)) rs.
Proof.
  induction rs as [|r rs IH]; [done|].
  rewrite bind_cons, filter_app, IH, round_messages_eq, filter_cons.
  destruct (truthy (prompt r)); done.
Qed.

Lemma length_round_messages (rs : list parsed_round) :
  length (rs ≫= round_messages)
  = length rs + length (filter (fun r => truthy (prompt r)) rs).
Proof.
  induction rs as [|r rs IH]; [done|].
  rewrite bind_cons, length_app, IH, round_messages_eq, filter_cons.
  destruct (truthy (prompt r)); simpl; lia.
Qed.

Lemma roles_round_messages (rs : list parsed_round) :
  Forall (fun msg => role msg = str "user" \/ role msg = str "assistant")
    (rs ≫= round_messages).
Proof.
  induction rs as [|r rs IH]; [constructor|].
  rewrite bind_cons. apply Forall_app. split; [|done].
  rewrite round_messages_eq.
  destruct (truthy (prompt r)); simpl;
    [apply Forall_cons_2; [by left|]|];
    (apply Forall_cons_2; [by right | apply Forall_nil_2]).
Qed.

(** A user message is followed by an assistant message. *)
Lemma user_then_assistant (rs : list parsed_round) (i : nat) (msg : message) :
  (rs ≫= round_messages) !! i = Some msg -> role msg = str "user" ->
  exists msg', (rs ≫= round_messages) !! S i = Some msg'
    /\ role msg' = str "assistant".
Proof.
  revert i. induction rs as [|r rs IH]; intros i; [done|].
  rewrite bind_cons, round_messages_eq. destruct (truthy (prompt r)); simpl.
  - destruct i as [|[|i]]; simpl.
    + intros _ _. by eexists.
    + by intros [= <-].
    + apply IH.
  - destruct i as [|i]; simpl.
    + by intros [= <-].
    + apply IH.
Qed.

Lemma last_round_messages (rs : list parsed_round) (msg : message) :
  last (rs ≫= round_messages) = Some msg -> role msg = str "assistant".
Proof.
  induction rs as [|r rs IH] using rev_ind; [done|].
  rewrite bind_app, bind_cons. cbn [mbind list_bind]. rewrite app_nil_r.
  rewrite round_messages_eq, !app_assoc, last_snoc. by intros [= <-].
Qed.

Lemma round_messages_ext (r1 r2 : parsed_round) :
  prompt r1 = prompt r2 -> public_answer r1 = public_answer r2 ->
  full_answer r1 = full_answer r2 ->
  round_messages r1 = round_messages r2.
Proof. unfold round_messages. by intros -> -> ->. Qed.

(** The one run of a file that is processed. *)
Lemma process_file_inv (self : TrajectoryParser) (f : file) (runs : list run) :
  process_file self f = Return runs ->
  exists pd, parse_trajectory_file self f = Return pd
    /\ meta_total_rounds (pd_metadata pd) = length (rounds pd)
    /\ runs = [{| messages := rounds pd ≫= round_messages;
                  metadata := {|
                    filename := name f;
                    experiment_type := str "multi_agent_negotiation";
                    total_rounds := length (rounds pd) |} |}].
Proof.
  unfold process_file.
  destruct (parse_trajectory_file self f) as [pd|] eqn:E; [|done].
  intros [= <-]. exists pd. split; [done|].
  apply parse_trajectory_file_inv in E as (m & items & _ & _ & Hr & Hpd).
  apply parse_rounds_inv in Hr as [Hlen _].
  rewrite convert_messages. rewrite Hpd. cbn. by rewrite Hlen.
Qed.

End FileFacts.

Module BatchFacts.
Import Py Sre TrajectoryParser Notions RunNotions.
Import ParseRoundFacts RoundFacts ConvertFacts ProcessFacts FileFacts.

Lemma process_all_eq (self : TrajectoryParser) :
  process_all_trajectories self
  = (history_files (data_dir self) ≫= runs_of self,
     filter (fun f => succeeds self f) (history_files (data_dir self))).
Proof. unfold process_all_trajectories. by rewrite foldl_process_step. Qed.

Lemma main_eq (d : directory) :
  main d = {| docent_prepared_data := (process_all_trajectories (__init__ d)).1;
              directory_after :=
                foldl rename d (process_all_trajectories (__init__ d)).2 |}.
Proof. unfold main. by destruct (process_all_trajectories (__init__ d)). Qed.

Lemma config_txt_foldl_rename (d : directory) (fs : list file) :
  config_txt (foldl rename d fs) = config_txt d.
Proof.
  revert d. induction fs as [|f fs IH]; intros d; [done|]. simpl. by rewrite IH.
Qed.

Lemma config_foldl_rename (d : directory) (fs : list file) :
  config (__init__ (foldl rename d fs)) = config (__init__ d).
Proof.
  unfold __init__, _load_config. cbn [config]. by rewrite config_txt_foldl_rename.
Qed.

Lemma succeeds_config (self self' : TrajectoryParser) (f : file) :
  config self = config self' -> succeeds self f = succeeds self' f.
Proof. intros H. unfold succeeds. by rewrite (process_file_config self self'). Qed.

Lemma runs_of_fails (self : TrajectoryParser) (f : file) :
  succeeds self f = false -> runs_of self f = [].
Proof. unfold succeeds, runs_of. by destruct (process_file self f). Qed.

Lemma bind_runs_of_fails (self : TrajectoryParser) (fs : list file) :
  Forall (fun f => succeeds self f = false) fs -> fs ≫= runs_of self = [].
Proof.
  induction 1 as [|f fs Hf _ IH]; [done|]. by rewrite bind_cons, IH, runs_of_fails.
Qed.

Lemma filter_succeeds_fails (self : TrajectoryParser) (fs : list file) :
  Forall (fun f => succeeds self f = false) fs ->
  filter (fun f => succeeds self f) fs = [].
Proof.
  induction 1 as [|f fs Hf _ IH]; [done|].
  rewrite filter_cons_False by (rewrite Hf; intros []). done.
Qed.

Lemma runs_of_succeeds (self : TrajectoryParser) (f : file) :
  succeeds self f = true ->
  exists run, runs_of self f = [run] /\ process_file self f = Return [run]
    /\ filename (metadata run) = name f.
Proof.
  unfold succeeds, runs_of.
  destruct (process_file self f) as [rs|e] eqn:E; [|done]. intros _.
  apply process_file_inv in E as (pd & _ & _ & ->). by eexists.
Qed.

(** The i-th run is that of the i-th file processed. *)
Lemma runs_of_lookup (self : TrajectoryParser) (fs : list file) i run :
  (fs ≫= runs_of self) !! i = Some run ->
  exists f, filter (fun f => succeeds self f) fs !! i = Some f
    /\ process_file self f = Return [run].
Proof.
  revert i. induction fs as [|f fs IH]; intros i; [done|].
  rewrite bind_cons. destruct (succeeds self f) eqn:E.
  - rewrite filter_cons_True by by rewrite E.
    destruct (runs_of_succeeds self f E) as (run0 & -> & Hp & _).
    destruct i as [|i]; simpl.
    + intros [= <-]. by eexists.
    + apply IH.
  - rewrite filter_cons_False by (rewrite E; intros []).
    rewrite runs_of_fails by done. apply IH.
Qed.

Lemma filenames_runs_of (self : TrajectoryParser) (fs : list file) :
  filename ∘ metadata <$> (fs ≫= runs_of self)
  = name <$> filter (fun f => succeeds self f) fs.
Proof.
  induction fs as [|f fs IH]; [done|].
  rewrite bind_cons, fmap_app, IH. destruct (succeeds self f) eqn:E.
  - rewrite filter_cons_True by by rewrite E.
    destruct (runs_of_succeeds self f E) as (run0 & -> & _ & Hn).
    simpl. by rewrite Hn.
  - rewrite filter_cons_False by (rewrite E; intros []).
    by rewrite runs_of_fails.
Qed.




End BatchFacts.

Section FileMore.
Import Py Sre TrajectoryParser Notions RunNotions Samples MoreSamples Summary.
Import ParseRoundFacts RoundFacts ConvertFacts ProcessFacts FileFacts BatchFacts.

(** X8: what a parsed trajectory file satisfies. The file loaded as a
    dict; [filename] is the file's name; the rounds are the items of the
    file's [rounds] (none when the key is absent), in order, each parsed
    with its position as [round_index]; [total_rounds], which the code
    takes from [len], is the number of parsed rounds; [slot_assignment]
    and [finished_rounds] are the file's, [[]] and [0] when absent. *)
Theorem parse_trajectory_file_invariants (self : TrajectoryParser) (f : file)
    (pd : parsed_data) :
  parse_trajectory_file self f = Return pd ->
  exists (m : gmap pystr json) (items : list json),
    load f = Return (JObj m)
    /\ iter (default (JArr []) (m !! str "rounds")) = Return items
    /\ pd_filename pd = name f
    /\ meta_total_rounds (pd_metadata pd) = length (rounds pd)
    /\ length (rounds pd) = length items
    /\ (forall i r, rounds pd !! i = Some r ->
          round_index r = i
          /\ exists rd, items !! i = Some rd /\ _parse_round self rd i = Return r)
    /\ meta_config (pd_metadata pd) = config self
    /\ slot_assignment pd = default (JArr []) (m !! str "slot_assignment")
    /\ finished_rounds (pd_metadata pd)
       = default (JInt 0) (m !! str "finished_rounds").
Proof.
  intros (m & items & Hl & Hi & Hr & Hpd)%parse_trajectory_file_inv.
  apply parse_rounds_inv in Hr as [Hlen Hall].
  exists m, items. rewrite Hpd. cbn -[str]. split_and!; try done.
  intros i r Hr. destruct (Hall i r Hr) as (rd & Hrd & Hp). split; [|by exists rd].
  by apply _parse_round_inv in Hp as (? & ? & _ & _ & _ & ->).
Qed.

Lemma parse_trajectory_file_invariants_witness :
  exists pd,
    parse_trajectory_file no_parser history_1 = Return pd
    /\ pd_filename pd = str "history_1.json"
    /\ meta_total_rounds (pd_metadata pd) = length (rounds pd)
    /\ finished_rounds (pd_metadata pd) = JInt 0.
Proof.
  eexists. split; [reflexivity|].
  destruct (parse_trajectory_file_invariants no_parser history_1 _ eq_refl)
    as (m & items & Hl & _ & H1 & H2 & _ & _ & _ & _ & H3).
  split; [exact H1|]. split; [exact H2|].
  injection Hl as <-. exact H3.
Defined.

(** X9: when [parse_trajectory_file] raises. What [open] or [json.load]
    raises propagates; a file that is no dict raises [AttributeError]; a
    [rounds] value without [len] ([null], a boolean, a number) raises
    [TypeError], and one that is a non-empty string raises
    [AttributeError]. When [rounds] is a list, the file is parsed exactly
    when every round parses: one round that raises makes the whole file
    raise, with the exception of the first such round. *)
Theorem parse_trajectory_file_raises (self : TrajectoryParser) (f : file) :
  (forall e, load f = Raise e -> parse_trajectory_file self f = Raise e)
  /\ (forall data, load f = Return data -> (forall m, data <> JObj m) ->
        parse_trajectory_file self f = Raise AttributeError)
  /\ (forall (m : gmap pystr json) v,
        load f = Return (JObj m) -> m !! str "rounds" = Some v ->
        len v = Raise TypeError ->
        parse_trajectory_file self f = Raise TypeError)
  /\ (forall (m : gmap pystr json) c (s : pystr),
        load f = Return (JObj m) -> m !! str "rounds" = Some (JStr (c :: s)) ->
        parse_trajectory_file self f = Raise AttributeError)
  /\ (forall (m : gmap pystr json) (l : list json),
        load f = Return (JObj m) -> default (JArr []) (m !! str "rounds") = JArr l ->
        ((exists pd, parse_trajectory_file self f = Return pd)
         <-> (forall i rd, l !! i = Some rd ->
                exists r, _parse_round self rd i = Return r))
        /\ (forall i rd e,
              l !! i = Some rd -> _parse_round self rd i = Raise e ->
              (forall j rd', j < i -> l !! j = Some rd' ->
                 exists r, _parse_round self rd' j = Return r) ->
              parse_trajectory_file self f = Raise e)).
Proof.
  split_and!.
  - intros e H. unfold parse_trajectory_file. by rewrite H.
  - intros data H Hn. unfold parse_trajectory_file. rewrite H.
    destruct data; try done. by destruct (Hn m).
  - intros m v Hl Hv Hlen. rewrite (parse_trajectory_file_dict self f m Hl), Hv.
    cbn [default from_option]. unfold id. by rewrite Hlen.
  - intros m c s Hl Hv. rewrite (parse_trajectory_file_dict self f m Hl), Hv. done.
  - intros m l Hl Hv. rewrite (parse_trajectory_file_dict self f m Hl), Hv.
    cbn [len iter mbind outcome_bind]. split.
    + split.
      * intros [pd H]. destruct (parse_rounds self l 0) as [rs|] eqn:E; [|done].
        apply parse_rounds_inv in E as [Hlen Hall].
        intros i rd Hi.
        assert (is_Some (rs !! i)) as [r Hr].
        { apply lookup_lt_is_Some. rewrite Hlen. by eapply lookup_lt_Some. }
        destruct (Hall i r Hr) as (rd' & Hrd' & Hp). simplify_eq. by exists r.
      * intros H. destruct (parse_rounds_returns self l 0 H) as [rs ->]. by eexists.
    + intros i rd e Hi He Hbefore.
      by rewrite (parse_rounds_raises self l 0 i rd e).
Qed.

Lemma parse_trajectory_file_raises_witness :
  parse_trajectory_file no_parser history_2 = Raise TypeError.
Proof.
  destruct (parse_trajectory_file_raises no_parser history_2) as (_ & _ & _ & _ & H).
  destruct (H _ [JObj {[ str "full_answer" := JInt 5 ]}] eq_refl eq_refl) as [_ Hfirst].
  apply (Hfirst 0 _ TypeError eq_refl eq_refl). intros j rd' Hj. lia.
Defined.

(** X10: the shape of a run. [convert_to_docent_format] returns one run,
    whose metadata are the file's name, the experiment type and
    [total_rounds]. Its assistant messages are one per round, in order,
    each with [public_answer or full_answer] of its round; its user
    messages are the prompts of the rounds whose prompt tests true, in
    order; there is no other message. Every user message is followed at
    once by an assistant message, the last message is an assistant
    message, and the number of messages is the number of rounds plus the
    number of rounds with a prompt. *)
Theorem convert_run_shape (parsed_data : parsed_data) :
  exists run, convert_to_docent_format parsed_data = [run]
    /\ metadata run
       = {| filename := pd_filename parsed_data;
            experiment_type := str "multi_agent_negotiation";
            total_rounds := meta_total_rounds (pd_metadata parsed_data) |}
    /\ filter (fun msg => is_assistant msg) (messages run)
       = assistant_message <$> rounds parsed_data
    /\ filter (fun msg => is_user msg) (messages run)
       = user_message <$> filter (fun r => truthy (prompt r)) (rounds parsed_data)
    /\ Forall (fun msg => role msg = str "user" \/ role msg = str "assistant")
         (messages run)
    /\ (forall i msg, messages run !! i = Some msg -> role msg = str "user" ->
          exists msg', messages run !! S i = Some msg'
            /\ role msg' = str "assistant")
    /\ (forall msg, last (messages run) = Some msg -> role msg = str "assistant")
    /\ length (messages run)
       = length (rounds parsed_data)
         + length (filter (fun r => truthy (prompt r)) (rounds parsed_data)).
Proof.
  eexists. split; [apply convert_messages|]. cbn [messages metadata].
  split_and!.
  - done.
  - apply filter_assistant_rounds.
  - apply filter_user_rounds.
  - apply roles_round_messages.
  - apply user_then_assistant.
  - apply last_round_messages.
  - apply length_round_messages.
Qed.

(** X11: what a run does not hold. The run of a trajectory depends on
    the file's name, on [total_rounds] and, round by round, on the
    prompt, the public answer and the [full_answer] only: the agent, its
    configuration, the deals, the scratchpad and the other fields of
    the parsed rounds, [slot_assignment] and [finished_rounds] leave no
    trace in it. *)
Theorem convert_ignores_extracted (pd1 pd2 : parsed_data) :
  pd_filename pd1 = pd_filename pd2 ->
  meta_total_rounds (pd_metadata pd1) = meta_total_rounds (pd_metadata pd2) ->
  Forall2 (fun r1 r2 => prompt r1 = prompt r2
                        /\ public_answer r1 = public_answer r2
                        /\ full_answer r1 = full_answer r2)
    (rounds pd1) (rounds pd2) ->
  convert_to_docent_format pd1 = convert_to_docent_format pd2.
Proof.
  intros Hn Ht Hr. rewrite !convert_messages, Hn, Ht. do 2 f_equal.
  induction Hr as [|r1 r2 rs1 rs2 (? & ? & ?) _ IH]; [done|].
  by rewrite !bind_cons, IH, (round_messages_ext r1 r2).
Qed.

Lemma convert_ignores_extracted_witness :
  convert_to_docent_format two_rounds
  = convert_to_docent_format
      {| pd_filename := pd_filename two_rounds;
         slot_assignment := JArr [JInt 1];
         rounds := other_extraction <$> rounds two_rounds;
         pd_metadata :=
           {| meta_config := ∅; meta_total_rounds := 2; finished_rounds := JInt 9 |} |}.
Proof.
  apply convert_ignores_extracted; [reflexivity | reflexivity |].
  repeat (constructor; [by split_and!|]). constructor.
Defined.

(** X12: the runs and the files. A file that is processed gives one
    run, whose [filename] is the file's name and whose [total_rounds] is
    the number of its assistant messages. The run at position [i] of
    [all_runs] is the run of the file at position [i] of
    [processed_files]: the two lists go by pairs. *)
Theorem runs_match_files (self : TrajectoryParser) :
  (forall f runs, process_file self f = Return runs ->
     exists run, runs = [run]
       /\ filename (metadata run) = name f
       /\ experiment_type (metadata run) = str "multi_agent_negotiation"
       /\ total_rounds (metadata run)
          = length (filter (fun msg => is_assistant msg) (messages run)))
  /\ (forall i run, (process_all_trajectories self).1 !! i = Some run ->
        exists f, (process_all_trajectories self).2 !! i = Some f
          /\ process_file self f = Return [run])
  /\ filename ∘ metadata <$> (process_all_trajectories self).1
     = name <$> (process_all_trajectories self).2.
Proof.
  split_and!.
  - intros f runs (pd & _ & _ & ->)%process_file_inv. eexists. split; [done|].
    cbn [metadata messages filename experiment_type total_rounds].
    by rewrite filter_assistant_rounds, length_fmap.
  - intros i run. rewrite process_all_eq. apply runs_of_lookup.
  - rewrite process_all_eq. apply filenames_runs_of.
Qed.

Lemma runs_match_files_witness :
  filename ∘ metadata <$> (process_all_trajectories (__init__ three_files)).1
  = [str "history_1.json"; str "history_3.json"]
  /\ exists run, process_file (__init__ three_files) history_1 = Return [run]
       /\ total_rounds (metadata run) = 1.
Proof.
  destruct (runs_match_files (__init__ three_files)) as (Hfile & _ & Hnames).
  split; [by rewrite Hnames|].
  destruct (Hfile history_1 _ eq_refl) as (run & Hrun & _ & _ & Hn).
  exists run. split; [exact (f_equal Return Hrun)|]. rewrite Hn.
  injection Hrun as <-. reflexivity.
Defined.

(** X13: a second run of [main]. Run again on the directory it left,
    [main] finds only the files that raised, which raise again: it
    writes an empty list of runs over the artifact and moves no file. *)
Theorem main_twice (d : directory) :
  let d' := directory_after (main d) in
  docent_prepared_data (main d') = [] /\ directory_after (main d') = d'.
Proof.
  intros d'.
  assert (Forall (fun f => succeeds (__init__ d') f = false) (history_files d')) as Hf.
  { unfold d'. rewrite main_eq. cbn [directory_after].
    rewrite history_files_foldl_rename, process_all_eq. cbn [snd].
    change (data_dir (__init__ d)) with d.
    apply Forall_forall. intros f [Hn Hin]%list_elem_of_filter.
    rewrite (succeeds_config _ (__init__ d)) by apply config_foldl_rename.
    destruct (succeeds (__init__ d) f) eqn:E; [|done].
    destruct Hn. apply list_elem_of_fmap_2. apply list_elem_of_filter.
    split; [by rewrite E | done]. }
  rewrite (main_eq d'), (process_all_eq (__init__ d')).
  change (data_dir (__init__ d')) with d'.
  cbn [docent_prepared_data directory_after fst snd].
  by rewrite bind_runs_of_fails, filter_succeeds_fails.
Qed.



(** X15: the summary statistics. [total_messages] is the number of
    messages of all the runs. No message of a run has a [metadata] key,
    so the loop over the messages adds no agent, for any runs: the
    unique agents the script prints are none. *)
Theorem summary_counts_no_agent (docent_runs : list run) :
  summary_statistics docent_runs
  = Return {| total_messages :=
                sum_list ((fun run => length (messages run)) <$> docent_runs);
              agents := [] |}.
Proof.
  unfold summary_statistics.
  assert (forall msgs agents, for_each agents_add agents msgs = Return agents) as Hin.
  { induction msgs as [|msg msgs IH]; intros agents; [done|]. simpl.
    unfold agents_add at 1. cbn -[str for_each].
    rewrite lookup_insert_ne by done. rewrite lookup_singleton_ne by done.
    cbn -[str for_each]. rewrite lookup_empty.
    rewrite bool_decide_eq_false_2 by (by intros [? ?]). apply IH. }
  assert (forall agents,
    for_each (fun agents run => for_each agents_add agents (messages run))
      agents docent_runs = Return agents) as ->; [|done].
  induction docent_runs as [|run runs IH]; intros agents; [done|].
  simpl. rewrite Hin. apply IH.
Qed.

End FileMore.

Module LineFacts.
Import Py TrajectoryParser Notions RunNotions StripFacts ConfigFacts.

Lemma split_cons (sep c : N) (s : pystr) :
  split sep (c :: s) =
  if (c =? sep)%N then [] :: split sep s
  else match split sep s with
       | f :: fs => (c :: f) :: fs
       | [] => [[c]]
       end.
Proof. done. Qed.

Lemma split_nonempty (sep : N) (s : pystr) : split sep s <> [].
Proof.
  induction s as [|c s IH]; [done|]. rewrite split_cons.
  destruct (c =? sep)%N; [done|]. by destruct (split sep s).
Qed.

(** A text without the separator is one field. *)
Lemma split_notin (sep : N) (f : pystr) : sep ∉ f -> split sep f = [f].
Proof.
  induction f as [|c f IH]; [done|]. intros [Hc Hf]%not_elem_of_cons.
  rewrite split_cons, IH by done.
  by assert ((c =? sep)%N = false) as -> by (apply N.eqb_neq; congruence).
Qed.

Lemma split_app_sep (sep : N) (f s : pystr) :
  sep ∉ f -> split sep (f ++ sep :: s) = f :: split sep s.
Proof.
  induction f as [|c f IH]; intros Hf.
  - rewrite app_nil_l, split_cons. by rewrite N.eqb_refl.
  - apply not_elem_of_cons in Hf as [Hc Hf]. rewrite <- app_comm_cons, split_cons.
    rewrite IH by done.
    by assert ((c =? sep)%N = false) as -> by (apply N.eqb_neq; congruence).
Qed.

(** [split] undoes [join] on fields without the separator, and [join]
    undoes [split]. *)
Lemma split_join (sep : N) (fields : list pystr) :
  fields <> [] -> Forall (fun f => sep ∉ f) fields ->
  split sep (join sep fields) = fields.
Proof.
  intros Hne Hall. induction Hall as [|f fs Hf Hfs IH]; [done|].
  destruct fs as [|g fs].
  - simpl. by apply split_notin.
  - change (join sep (f :: g :: fs)) with (f ++ sep :: join sep (g :: fs)).
    rewrite split_app_sep by done. by rewrite IH.
Qed.

Lemma join_cons (sep : N) (f g : pystr) (fs : list pystr) :
  join sep (f :: g :: fs) = f ++ sep :: join sep (g :: fs).
Proof. done. Qed.

Lemma join_split (sep : N) (s : pystr) : join sep (split sep s) = s.
Proof.
  induction s as [|c s IH]; [done|]. rewrite split_cons.
  pose proof (split_nonempty sep s) as Hne.
  destruct (c =? sep)%N eqn:E.
  - apply N.eqb_eq in E as ->. destruct (split sep s) as [|f fs]; [done|].
    by rewrite join_cons, IH.
  - destruct (split sep s) as [|f fs]; [done|].
    destruct fs as [|g fs]; simpl in *; by rewrite <- IH.
Qed.

Lemma line_entry_Some (line agent_name : pystr) (entry : agent_entry) :
  line_entry line = Some (agent_name, entry) <->
  exists p1 p2 p3 p4 rest,
    split 44 (strip line) = agent_name :: p1 :: p2 :: p3 :: p4 :: rest
    /\ entry = {| short_name := p1; player_type := p2; strategy := p3; model := p4 |}.
Proof.
  unfold line_entry, parts.
  destruct (split 44 (strip line)) as [|n [|p1 [|p2 [|p3 [|p4 rest]]]]];
    try (split; [done | by intros (? & ? & ? & ? & ? & ? & ?)]).
  split.
  - intros [= -> <-]. by eexists _, _, _, _, _.
  - intros (? & ? & ? & ? & ? & [= -> -> -> -> ->] & ->). done.
Qed.

(** Every entry of the mapping was there before, or comes from the last
    line that names it. *)
Lemma foldl_load_config_inv (config : gmap pystr agent_entry)
    (lines : list pystr) (agent_name : pystr) (entry : agent_entry) :
  foldl _load_config_line config lines !! agent_name = Some entry ->
  (config !! agent_name = Some entry /\ not_renamed agent_name lines)
  \/ exists before line after,
       lines = before ++ line :: after
       /\ line_entry line = Some (agent_name, entry)
       /\ not_renamed agent_name after.
Proof.
  revert config. induction lines as [|line lines IH]; intros config.
  - intros H. left. split; [done | constructor].
  - simpl. intros [[H Hn]|(before & l & after & -> & Hl & Hn)]%IH.
    + rewrite _load_config_line_entry in H.
      destruct (line_entry line) as [[n e]|] eqn:E.
      * destruct (decide (n = agent_name)) as [->|Hne].
        -- rewrite lookup_insert_eq in H. injection H as ->. right.
           by exists [], line, lines.
        -- rewrite lookup_insert_ne in H by done. left. split; [done|].
           constructor; [|done]. intros e'. congruence.
      * left. split; [done|]. constructor; [|done]. intros e'. congruence.
    + right. by exists (line :: before), l, after.
Qed.

Lemma size_foldl_load_config (config : gmap pystr agent_entry) (lines : list pystr) :
  size (foldl _load_config_line config lines) <= size config + length lines.
Proof.
  revert config. induction lines as [|line lines IH]; intros config; [simpl; lia|].
  simpl. etrans; [apply IH|]. rewrite _load_config_line_entry.
  destruct (line_entry line) as [[n e]|]; [|lia].
  rewrite map_size_insert. destruct (config !! n); simpl; lia.
Qed.

End LineFacts.

Section ConfigMore.
Import Py TrajectoryParser Notions RunNotions Samples.
Import StripFacts ConfigFacts LineFacts ParseRoundFacts.

(** X16: the mapping holds nothing but what the lines say. Every entry
    of the loaded configuration comes from a line of [config.txt] with
    five fields or more: the last line whose first field is the entry's
    name; and there are no more entries than lines. *)
Theorem load_config_only_lines (data_dir : directory) :
  (forall agent_name entry,
     _load_config data_dir !! agent_name = Some entry ->
     exists before line after p1 p2 p3 p4 rest,
       config_txt data_dir = Some (before ++ line :: after)
       /\ split 44 (strip line) = agent_name :: p1 :: p2 :: p3 :: p4 :: rest
       /\ entry = {| short_name := p1; player_type := p2;
                     strategy := p3; model := p4 |}
       /\ not_renamed agent_name after)
  /\ (forall lines, config_txt data_dir = Some lines ->
        size (_load_config data_dir) <= length lines).
Proof.
  unfold _load_config. split.
  - intros agent_name entry H. destruct (config_txt data_dir) as [lines|]; [|done].
    apply foldl_load_config_inv in H as [[H _]|(before & line & after & -> & Hl & Hn)];
      [done|].
    apply line_entry_Some in Hl as (p1 & p2 & p3 & p4 & rest & Hs & ->).
    by exists before, line, after, p1, p2, p3, p4, rest.
  - intros lines ->. pose proof (size_foldl_load_config ∅ lines) as H.
    by rewrite map_size_empty in H.
Qed.

Lemma load_config_only_lines_witness :
  exists before l after,
    [line "Bob,B1,seller"; line "Alice,A1,buyer,aggressive,gpt-4"]
    = before ++ l :: after
    /\ head (split 44 (strip l)) = Some (str "Alice").
Proof.
  destruct (proj1 (load_config_only_lines
    {| config_txt := Some [line "Bob,B1,seller"; line "Alice,A1,buyer,aggressive,gpt-4"];
       history_files := []; processed := [] |}) (str "Alice") _ eq_refl)
    as (before & l & after & p1 & p2 & p3 & p4 & rest & Hc & Hs & _).
  exists before, l, after. split; [by injection Hc | by rewrite Hs].
Defined.

(** X17: the text of a line. A line made of five or more fields without
    a comma, joined by commas, with whitespace (the line end) around it
    and none at either end of the joined text, maps its first field to
    the next four, as they stand: whitespace inside the line, around a
    comma, stays in the fields, and fields after the fifth are dropped.
    The fields of any line, joined by commas, are the stripped line. *)
Theorem config_line_fields (config : gmap pystr agent_entry)
    (ws1 ws2 agent_name p1 p2 p3 p4 : pystr) (rest : list pystr) :
  let fields := agent_name :: p1 :: p2 :: p3 :: p4 :: rest in
  Forall (fun f => 44%N ∉ f) fields ->
  blank ws1 -> blank ws2 ->
  strip (join 44 fields) = join 44 fields ->
  _load_config_line config (ws1 ++ join 44 fields ++ ws2)
  = <[agent_name := {| short_name := p1; player_type := p2;
                       strategy := p3; model := p4 |}]> config
  /\ forall line, join 44 (split 44 (strip line)) = strip line.
Proof.
  intros fields Hf H1 H2 Hs. split; [|intros line; apply join_split].
  rewrite _load_config_line_entry. unfold line_entry, parts.
  rewrite strip_blank_app by done. by rewrite split_join.
Qed.

Lemma config_line_fields_witness :
  _load_config_line ∅ (line "  Alice, A1 ,buyer,,gpt-4,spare ")
  = {[ str "Alice" := {| short_name := str " A1 "; player_type := str "buyer";
                         strategy := []; model := str "gpt-4" |} ]}.
Proof.
  apply (config_line_fields ∅ (str "  ") (str " " ++ [10%N])
           (str "Alice") (str " A1 ") (str "buyer") [] (str "gpt-4") [str "spare"]).
  - repeat (apply Forall_cons_2; [apply (bool_decide_unpack _); reflexivity|]).
    apply Forall_nil_2.
  - repeat (apply Forall_cons_2; [reflexivity|]). apply Forall_nil_2.
  - repeat (apply Forall_cons_2; [reflexivity|]). apply Forall_nil_2.
  - reflexivity.
Defined.

(** X18: the configuration of a round's agent. A round parsed by a
    parser made on a directory has, as [agent_config], the entry the
    last line of [config.txt] naming its agent stands for: the name is
    looked up as it stands in the round. When no line names the agent,
    or there is no [config.txt], the round has no entry (the empty
    dict). *)
Theorem agent_config_of_round (d : directory) (m : gmap pystr json)
    (idx : nat) (s a : pystr) :
  field m "full_answer" = JStr s ->
  field m "agent" = JStr a ->
  exists r, _parse_round (__init__ d) (JObj m) idx = Return r
    /\ (forall before line after p1 p2 p3 p4 rest,
          config_txt d = Some (before ++ line :: after) ->
          split 44 (strip line) = a :: p1 :: p2 :: p3 :: p4 :: rest ->
          not_renamed a after ->
          agent_config r = Some {| short_name := p1; player_type := p2;
                                   strategy := p3; model := p4 |})
    /\ (match config_txt d with
        | Some lines => not_renamed a lines
        | None => True
        end -> agent_config r = None).
Proof.
  intros Hs Ha. exists (parsed (__init__ d) m idx s).
  split; [apply ParseRoundFacts._parse_round_returns; [done | by rewrite Ha]|].
  unfold parsed; cbn [agent_config]. rewrite Ha.
  unfold __init__, _load_config; cbn [config]. split.
  - intros before line after p1 p2 p3 p4 rest -> Hl Hn.
    apply foldl_load_config_app; [|done]. unfold line_entry, parts. by rewrite Hl.
  - destruct (config_txt d) as [lines|]; [|done]. intros Hn.
    by rewrite foldl_load_config_keep.
Qed.

Lemma agent_config_of_round_witness :
  exists r,
    _parse_round
      (__init__ {| config_txt := Some [line "Alice,A1,buyer,aggressive,gpt-4"];
                   history_files := []; processed := [] |})
      (JObj (round_dict [("agent", "Alice"); ("full_answer", "I pass.")])) 0
    = Return r
    /\ agent_config r
       = Some {| short_name := str "A1"; player_type := str "buyer";
                 strategy := str "aggressive"; model := str "gpt-4" |}.
Proof.
  destruct (agent_config_of_round
    {| config_txt := Some [line "Alice,A1,buyer,aggressive,gpt-4"];
       history_files := []; processed := [] |}
    (round_dict [("agent", "Alice"); ("full_answer", "I pass.")]) 0 _ _
    eq_refl eq_refl) as (r & Hr & Hentry & _).
  exists r. split; [exact Hr|].
  apply (Hentry [] (line "Alice,A1,buyer,aggressive,gpt-4") []
           (str "A1") (str "buyer") (str "aggressive") (str "gpt-4") []);
    [reflexivity | reflexivity | apply Forall_nil_2].
Defined.

End ConfigMore.

Module UploadFacts.
Import Py.
Import TrajectoryParser (message, role, content).
Import ProperDocentIngestor IngestorNotions UploadNotions IngestorFacts.




End UploadFacts.

Section UploadMore.
Import Py.
Import TrajectoryParser (message, role, content).
Import ProperDocentIngestor IngestorNotions UploadNotions IngestorMain.
Import IngestorFacts UploadFacts.
Import RunNotions FileFacts BatchFacts.

Section Ingestor.
Context {pyfloat : Type} (float : Z -> pyfloat).




End Ingestor.

End UploadMore.
